(** * nhs: a minimal HTTP/1.1 server

    A shallow embedding of the two source variants of the server:

    - the incremental variant (a byte-driven state machine,
      [request::parse_and_build], fed buffer by buffer from the accept loop),
      in module [Incremental];
    - the one-pass variant (src/main.cpp: [request::parse] over one assembled
      buffer that is split on the CRLF CRLF delimiter), in module [OnePass].

    Strings ([std::string], [char] buffers) are [string]; the header maps
    ([std::unordered_map<std::string, std::string>]) are [gmap string string];
    exceptions are an explicit error type; the operating system's answers to
    [::send], [::recv], [::accept] are inputs of the model. *)

From Stdlib Require Import String Ascii ZArith Lia List Bool.
From stdpp Require Import base gmap strings list fin_maps pretty.

Local Open Scope Z_scope.

(** ** Characters and strings shared by both variants *)

Definition SP : ascii := " "%char.
Definition CR : ascii := "013"%char.
Definition LF : ascii := "010"%char.
Definition newline : string := String CR (String LF "").
Definition delimiter : string := newline +:+ newline.

(** [std::string::push_back] *)
Definition push_back (s : string) (c : ascii) : string := s +:+ String c "".

(** [std::tolower] in the "C" locale (the program never calls [setlocale]):
    only 'A'..'Z' are mapped. *)
Definition tolower (c : ascii) : ascii :=
  let n := nat_of_ascii c in
  if ((65 <=? n)%nat && (n <=? 90)%nat)%bool then ascii_of_nat (n + 32) else c.

(** The upper-case letters of the "C" locale. *)
Definition is_upper (c : ascii) : bool :=
  let n := nat_of_ascii c in ((65 <=? n)%nat && (n <=? 90)%nat)%bool.

(** [std::transform(s.begin(), s.end(), s.begin(), ::tolower)] *)
Fixpoint transform_tolower (s : string) : string :=
  match s with
  | EmptyString => EmptyString
  | String c s' => String (tolower c) (transform_tolower s')
  end.

(** [unordered_map::insert] / [emplace]: an existing key is not overwritten. *)
Definition umap_insert (k v : string) (m : gmap string string) : gmap string string :=
  match m !! k with
  | Some _ => m
  | None => <[k := v]> m
  end.

(** [unordered_map::operator[]] on a header map: the value under the key and
    the map with the key default-inserted when it was absent. *)
Definition umap_index (k : string) (m : gmap string string) : string * gmap string string :=
  match m !! k with
  | Some v => (v, m)
  | None => (EmptyString, <[k := EmptyString]> m)
  end.

(** The exceptions the program throws. *)
Inductive exn : Type :=
  | logic_error (what : string)
  | system_error (what : string)
  | runtime_error (what : string)
  | out_of_range.

(** The outcome of a call: a normal return, an exception, or undefined
    behaviour of the C++ program (an iterator moved past the end of its
    buffer, a range whose begin lies behind its end). *)
Inductive result (A : Type) : Type :=
  | Ok (a : A)
  | Throw (e : exn)
  | Undefined.
Arguments Ok {A} a.
Arguments Throw {A} e.
Arguments Undefined {A}.

(** The outcome of a loop that polls the operating system, run against a
    finite script of the system's answers: [Waiting] when the script ends
    while the loop is still polling. *)
Inductive polled (A : Type) : Type :=
  | Finished (a : A)
  | Raised (e : exn)
  | Waiting (a : A).
Arguments Finished {A} a.
Arguments Raised {A} e.
Arguments Waiting {A} a.

(** [buffer[0 .. n)]: the first [n] bytes of a buffer. *)
Fixpoint bytes_upto (n : nat) (buffer : string) : string :=
  match n, buffer with
  | S n', String c rest => String c (bytes_upto n' rest)
  | _, _ => EmptyString
  end.

(** Predicates on strings used to say what a well-formed line is. *)
Fixpoint all_chars (p : ascii → bool) (s : string) : bool :=
  match s with
  | EmptyString => true
  | String c rest => (p c && all_chars p rest)%bool
  end.
Definition no_char (c : ascii) (s : string) : bool :=
  all_chars (λ d, negb (Ascii.eqb d c)) s.
Definition starts_with (c : ascii) (s : string) : bool :=
  match s with
  | EmptyString => false
  | String d _ => Ascii.eqb d c
  end.
Fixpoint spaces (n : nat) : string :=
  match n with
  | O => EmptyString
  | S n' => String SP (spaces n')
  end.

(** [static default_status_messages], the same table in both variants. *)
Definition default_status_messages : gmap Z string :=
  <[200 := "OK"]> (<[400 := "Bad Request"]> (<[404 := "Not Found"]> ∅)).

(** [operator[]] on the status table: a missing code is default-inserted
    with the empty string. *)
Definition status_index (code : Z) (m : gmap Z string) : string * gmap Z string :=
  match m !! code with
  | Some v => (v, m)
  | None => (EmptyString, <[code := EmptyString]> m)
  end.

(** The initialiser of [message] in [response::send], the same in both
    variants:
    [!status_message_.empty() ? status_message_ : default_status_messages[status_]]. *)
Definition select_message (status_message : string) (code : Z) (table : gmap Z string)
    : string * gmap Z string :=
  if negb (String.eqb status_message EmptyString) then (status_message, table)
  else status_index code table.

(** [oss << n] for an [int] or a [std::size_t]: decimal digits. *)
Definition show_int (n : Z) : string := pretty n.
Definition show_size (n : nat) : string := pretty n.

(** ** The incremental variant *)

Module parse_state.
Inductive t : Type :=
  | method | path | query | protocol | http_version
  | header_key | header_value | body
  | cr | crlf | crlfcr | done | invalid.

Definition eqb (a b : t) : bool :=
  match a, b with
  | method, method | path, path | query, query | protocol, protocol
  | http_version, http_version | header_key, header_key
  | header_value, header_value | body, body | cr, cr | crlf, crlf
  | crlfcr, crlfcr | done, done | invalid, invalid => true
  | _, _ => false
  end.
End parse_state.

Module Incremental.

Record request : Type := mk_request {
  headers_ : gmap string string;
  method_ : string;
  original_url_ : string;
  path_ : string;
  protocol_ : string;
  hostname_ : string;
  body_ : string;
  http_version_ : string;
  state_ : parse_state.t
}.

(** [request() = default] *)
Definition request_default : request :=
  mk_request ∅ "" "" "" "" "" "" "" parse_state.method.

Definition set_state (r : request) (s : parse_state.t) : request :=
  mk_request (headers_ r) (method_ r) (original_url_ r) (path_ r) (protocol_ r)
             (hostname_ r) (body_ r) (http_version_ r) s.
Definition set_headers (r : request) (h : gmap string string) : request :=
  mk_request h (method_ r) (original_url_ r) (path_ r) (protocol_ r)
             (hostname_ r) (body_ r) (http_version_ r) (state_ r).
Definition set_method (r : request) (v : string) : request :=
  mk_request (headers_ r) v (original_url_ r) (path_ r) (protocol_ r)
             (hostname_ r) (body_ r) (http_version_ r) (state_ r).
Definition set_original_url (r : request) (v : string) : request :=
  mk_request (headers_ r) (method_ r) v (path_ r) (protocol_ r)
             (hostname_ r) (body_ r) (http_version_ r) (state_ r).
Definition set_path (r : request) (v : string) : request :=
  mk_request (headers_ r) (method_ r) (original_url_ r) v (protocol_ r)
             (hostname_ r) (body_ r) (http_version_ r) (state_ r).
Definition set_protocol (r : request) (v : string) : request :=
  mk_request (headers_ r) (method_ r) (original_url_ r) (path_ r) v
             (hostname_ r) (body_ r) (http_version_ r) (state_ r).
Definition set_hostname (r : request) (v : string) : request :=
  mk_request (headers_ r) (method_ r) (original_url_ r) (path_ r) (protocol_ r)
             v (body_ r) (http_version_ r) (state_ r).
Definition set_body (r : request) (v : string) : request :=
  mk_request (headers_ r) (method_ r) (original_url_ r) (path_ r) (protocol_ r)
             (hostname_ r) v (http_version_ r) (state_ r).
Definition set_http_version (r : request) (v : string) : request :=
  mk_request (headers_ r) (method_ r) (original_url_ r) (path_ r) (protocol_ r)
             (hostname_ r) (body_ r) v (state_ r).

(** The local [std::pair<std::string, std::string> header_buffer] of
    [parse_and_build]. *)
Definition header_buffer : Type := (string * string)%type.
Definition header_buffer_empty : header_buffer := (EmptyString, EmptyString).

(** One iteration of the [for] loop of [parse_and_build]: the [switch] on
    [state_] applied to the byte [it]. *)
Definition step (st : request * header_buffer) (it : ascii) : request * header_buffer :=
  let '(r, hb) := st in
  match state_ r with
  | parse_state.method =>
      if Ascii.eqb it SP then (set_state r parse_state.path, hb)
      else (set_method r (push_back (method_ r) it), hb)
  | parse_state.path =>
      if Ascii.eqb it SP then
        (set_original_url (set_state r parse_state.protocol) (path_ r), hb)
      else if Ascii.eqb it "?"%char then (set_state r parse_state.query, hb)
      else (set_path r (push_back (path_ r) it), hb)
  | parse_state.query =>
      if Ascii.eqb it SP then
        (set_original_url (set_state r parse_state.protocol) (path_ r), hb)
      else (r, hb)
  | parse_state.protocol =>
      if Ascii.eqb it "/"%char then (set_state r parse_state.http_version, hb)
      else (set_protocol r (push_back (protocol_ r) it), hb)
  | parse_state.http_version =>
      if Ascii.eqb it CR then (set_state r parse_state.cr, hb)
      else (set_http_version r (push_back (http_version_ r) it), hb)
  | parse_state.header_key =>
      if Ascii.eqb it ":"%char then (set_state r parse_state.header_value, hb)
      else (r, (push_back (fst hb) (tolower it), snd hb))
  | parse_state.header_value =>
      if (Ascii.eqb it SP && String.eqb (snd hb) EmptyString)%bool then (r, hb)
      else if Ascii.eqb it CR then
        (set_state (set_headers r (umap_insert (fst hb) (snd hb) (headers_ r)))
                   parse_state.cr,
         header_buffer_empty)
      else (r, (fst hb, push_back (snd hb) it))
  | parse_state.body => (set_body r (push_back (body_ r) it), hb)
  | parse_state.cr =>
      if Ascii.eqb it LF then (set_state r parse_state.crlf, hb)
      else (set_state r parse_state.invalid, hb)
  | parse_state.crlf =>
      if Ascii.eqb it CR then (set_state r parse_state.crlfcr, hb)
      else (set_state r parse_state.header_key,
            (push_back (fst hb) (tolower it), snd hb))
  | parse_state.crlfcr =>
      if Ascii.eqb it LF then (set_state r parse_state.done, hb)
      else (set_state r parse_state.invalid, hb)
  | parse_state.done => (set_state r parse_state.done, hb)
  | parse_state.invalid => (r, hb)
  end.

(** The [for] loop over the bytes of one buffer. *)
Fixpoint consume (st : request * header_buffer) (bytes : string) : request * header_buffer :=
  match bytes with
  | EmptyString => st
  | String it rest => consume (step st it) rest
  end.

(** [request::parse_and_build(buffer, recv_size)]: the loop reads
    [buffer[0 .. recv_size)]. [header_buffer] is a local of the call: it
    starts empty on every call and is dropped at its end. *)
Definition parse_and_build (r : request) (buffer : string) (recv_size : Z) : request :=
  fst (consume (r, header_buffer_empty) (bytes_upto (Z.to_nat recv_size) buffer)).

(** A call on a buffer that holds exactly the received chunk. *)
Definition feed (r : request) (chunk : string) : request :=
  parse_and_build r chunk (Z.of_nat (String.length chunk)).

(** The parser fed a sequence of chunks, one call per chunk. *)
Definition feed_all (r : request) (chunks : list string) : request :=
  fold_left feed chunks r.

(** Successive calls of [parse_and_build], each with its own buffer and size. *)
Definition calls (r : request) (bufs : list (string * Z)) : request :=
  fold_left (λ acc b, parse_and_build acc (fst b) (snd b)) bufs r.

(** The byte stream a sequence of chunks carries, and a stream cut into
    chunks of one byte. *)
Definition join (chunks : list string) : string :=
  fold_right String.append EmptyString chunks.
Fixpoint bytewise (stream : string) : list string :=
  match stream with
  | EmptyString => []
  | String c rest => String c EmptyString :: bytewise rest
  end.

(** The state and the fields filled from the request line and the body:
    everything of a request but its header map. *)
Definition line_fields (r : request)
    : parse_state.t * string * string * string * string * string * string * string :=
  (state_ r, method_ r, original_url_ r, path_ r, protocol_ r, hostname_ r,
   body_ r, http_version_ r).

(** *** class socket *)

Record socket : Type := mk_socket {
  sock_ : Z;
  accepted_sock_ : Z;
  port_ : Z
}.

(** [socket() = default] and [socket(int port)] *)
Definition socket_default : socket := mk_socket 0 0 80.
Definition socket_of_port (port : Z) : socket := mk_socket 0 0 port.

Section Socket.
(** The value of [EAGAIN] in <errno.h>. *)
Variable EAGAIN : Z.

(** [socket::connect]; [os_socket] and [os_bind] are what [::socket] and
    [::bind] return, [errno] is not recorded in the exception. *)
Definition connect (s : socket) (os_socket os_bind : Z) : socket * result unit :=
  let s' := mk_socket os_socket (accepted_sock_ s) (port_ s) in
  if os_socket <? 0 then (s', Throw (system_error "socket"))
  else if negb (os_bind =? 0) then (s', Throw (system_error "bind"))
  else (s', Ok tt).

(** [socket::listen]; [os_listen] is what [::listen] returns. *)
Definition listen (s : socket) (os_listen : Z) : socket * result unit :=
  if sock_ s =? 0 then (s, Throw (logic_error "socket is not created"))
  else if negb (os_listen =? 0) then (s, Throw (system_error "listen"))
  else (s, Ok tt).

(** The [while] loop of [socket::accept] against the answers
    (return value, errno) of successive [::accept] calls. *)
Fixpoint accept_loop (s : socket) (answers : list (Z * Z)) : socket * polled unit :=
  match answers with
  | [] => (s, Waiting tt)
  | (fd, errno) :: rest =>
      let s' := mk_socket (sock_ s) fd (port_ s) in
      if fd <=? 0 then
        if errno =? EAGAIN then accept_loop s' rest
        else (s', Raised (system_error "accept"))
      else (s', Finished tt)
  end.

(** [socket::accept] *)
Definition accept (s : socket) (answers : list (Z * Z)) : socket * polled unit :=
  if sock_ s =? 0 then (s, Raised (logic_error "socket is not created"))
  else accept_loop s answers.

(** [socket::recv(buffer, size)]; [os_recv] is what [::recv] returns (the
    bytes themselves land in the caller's buffer). *)
Definition recv (s : socket) (os_recv errno : Z) : result Z :=
  if accepted_sock_ s =? 0 then Throw (logic_error "socket is not accepted")
  else if os_recv <? 0 then
    if errno =? EAGAIN then Ok os_recv else Throw (system_error "recv")
  else Ok os_recv.

(** [socket::send(buf)]; [os_send] is what [::send] returns. *)
Definition send (s : socket) (buf : string) (os_send : Z) : result unit :=
  if os_send <? 0 then Throw (system_error "") else Ok tt.

(** The inner [while (true)] loop of [server::listen] for one accepted
    peer: every answer is the buffer contents with the (return value, errno)
    of one [::recv]. *)
Fixpoint read_request (sock : socket) (req : request)
    (answers : list (string * Z * Z)) : polled request :=
  match answers with
  | [] => Waiting req
  | (buffer, os_recv, errno) :: rest =>
      match recv sock os_recv errno with
      | Throw e => Raised e
      | Undefined => Waiting req (* [recv] has no undefined case *)
      | Ok recv_size =>
          if recv_size =? 0 then Finished req
          else if recv_size <? 0 then read_request sock req rest
          else
            let req' := parse_and_build req buffer recv_size in
            if parse_state.eqb (state_ req') parse_state.done
            then Finished (set_hostname req' "localhost")
            else read_request sock req' rest
      end
  end.
End Socket.

(** *** class response *)

(** A [std::string] under construction: [size] characters of [storage] are
    the string, the storage behind them is reserved capacity. Writing
    through an iterator stores bytes and leaves [size] alone; only the
    size-changing members ([push_back], [resize], ...) move [size]. *)
Record strbuf : Type := mk_strbuf {
  size : nat;
  storage : string
}.

(** [std::string lower_header;] *)
Definition strbuf_empty : strbuf := mk_strbuf 0 EmptyString.

Fixpoint pad (n : nat) (s : string) : string :=
  match n, s with
  | O, _ => s
  | S n', EmptyString => String "000"%char (pad n' EmptyString)
  | S n', String c s' => String c (pad n' s')
  end.

(** [lower_header.reserve(n)]: capacity at least [n], same size. *)
Definition reserve (n : nat) (b : strbuf) : strbuf :=
  mk_strbuf (size b) (pad n (storage b)).

Fixpoint overwrite (src dst : string) : string :=
  match src, dst with
  | EmptyString, _ => dst
  | String c src', EmptyString => String c (overwrite src' EmptyString)
  | String c src', String _ dst' => String c (overwrite src' dst')
  end.

(** [std::transform(src.begin(), src.end(), b.begin(), tolower)]: the
    lower-cased bytes are stored from the first position on. *)
Definition transform_into (src : string) (b : strbuf) : strbuf :=
  mk_strbuf (size b) (overwrite (transform_tolower src) (storage b)).

(** The string a [strbuf] denotes: its first [size] characters. *)
Definition strbuf_value (b : strbuf) : string := bytes_upto (size b) (storage b).

(** The local [lower_header] of [set_header] and [get_header] as the map sees it. *)
Definition lower_header (header : string) : string :=
  strbuf_value (transform_into header (reserve (String.length header) strbuf_empty)).

Record response : Type := mk_response {
  request_ : request;
  res_headers_ : gmap string string;
  status_ : Z;
  status_message_ : string
}.

(** [response(request const&, socket&)] with the default member initialisers. *)
Definition response_new (req : request) : response := mk_response req ∅ 200 "".

(** [response::set_header] *)
Definition set_header (res : response) (header value : string) : response :=
  mk_response (request_ res) (umap_insert (lower_header header) value (res_headers_ res))
              (status_ res) (status_message_ res).

(** [response::get_header]: [headers_.at] throws [std::out_of_range]. *)
Definition get_header (res : response) (header : string) : result string :=
  match res_headers_ res !! lower_header header with
  | Some v => Ok v
  | None => Throw out_of_range
  end.

(** [response::status] and [response::status_message] *)
Definition status (res : response) (code : Z) : response :=
  mk_response (request_ res) (res_headers_ res) code (status_message_ res).
Definition status_message (res : response) (message : string) : response :=
  mk_response (request_ res) (res_headers_ res) (status_ res) message.

(** The [for] loop over [headers_]: one line per entry, in the iteration
    order [order] of the unordered map. *)
Fixpoint write_headers (oss : string) (order : list (string * string)) : string :=
  match order with
  | [] => oss
  | (header, value) :: rest =>
      write_headers (oss +:+ header +:+ ": " +:+ value +:+ newline) rest
  end.

(** The text [response::send] assembles in [oss] and hands to the socket,
    with the status table after the [operator[]] lookup. [order] is the
    order in which the unordered map [headers_] is iterated. *)
Definition render (res : response) (order : list (string * string))
    (table : gmap Z string) (body : string) : string * gmap Z string :=
  let '(message, table') := select_message (status_message_ res) (status_ res) table in
  let oss := EmptyString in
  let oss := oss +:+ protocol_ (request_ res) +:+ "/" +:+ http_version_ (request_ res)
                 +:+ " " +:+ show_int (status_ res) +:+ " " +:+ message +:+ newline in
  let oss := write_headers oss order in
  let oss :=
    if negb (String.eqb body EmptyString)
    then (oss +:+ "Content-Length: " +:+ show_size (String.length body) +:+ newline)
           +:+ "Content-Type: text/html" +:+ newline
    else oss in
  let oss := oss +:+ "Connection: Keep-Alive" +:+ newline in
  let oss := oss +:+ newline in
  let oss := if negb (String.eqb body EmptyString) then oss +:+ body else oss in
  (oss, table').

(** [response::send]: the bytes written, the status table afterwards and
    the outcome of [socket::send]. *)
Definition response_send (res : response) (sock : socket)
    (order : list (string * string)) (table : gmap Z string) (body : string)
    (os_send : Z) : string * gmap Z string * result unit :=
  let '(wire, table') := render res order table body in
  (wire, table', send sock wire os_send).

End Incremental.

(** ** The one-pass variant (src/main.cpp) *)

Module OnePass.

(** Iterators into a buffer are offsets from its begin. *)

(** [buffer[first .. last)] *)
Fixpoint drop_bytes (n : nat) (s : string) : string :=
  match n, s with
  | O, _ => s
  | S n', String _ rest => drop_bytes n' rest
  | S _, EmptyString => EmptyString
  end.
Definition range (first last : nat) (s : string) : string :=
  bytes_upto (last - first) (drop_bytes first s).

(** Offset of the first occurrence of [pat] in [s], the length of [s] when
    there is none. *)
Fixpoint find_sub (pat s : string) : nat :=
  if String.prefix pat s then O
  else match s with
       | EmptyString => O
       | String _ rest => S (find_sub pat rest)
       end.

(** Offset of the first [c] in [s], the length of [s] when there is none. *)
Fixpoint find_char (c : ascii) (s : string) : nat :=
  match s with
  | EmptyString => O
  | String d rest => if Ascii.eqb d c then O else S (find_char c rest)
  end.

(** [std::search(first, last, pat, pat_end)] and [std::find(first, last, c)]
    on the buffer [s]: [last] when nothing is found in [first .. last). *)
Definition search (s : string) (first last : nat) (pat : string) : nat :=
  (first + find_sub pat (range first last s))%nat.
Definition find (s : string) (first last : nat) (c : ascii) : nat :=
  (first + find_char c (range first last s))%nat.

Record request : Type := mk_request {
  raw_request_ : string;
  headers_ : gmap string string;
  method_ : string;
  original_url_ : string;
  path_ : string;
  protocol_ : string;
  hostname_ : string;
  body_ : string;
  http_version_ : string
}.

(** The [while (header_begin < headers_end)] loop of [request::parse].
    Every turn moves [header_begin] forward by two bytes or more; [fuel]
    bounds the number of turns and [None] is an exhausted bound. *)
Fixpoint parse_headers (fuel : nat) (raw : string) (headers_end header_begin : nat)
    (headers : gmap string string) : option (result (gmap string string)) :=
  if (headers_end <=? header_begin)%nat then Some (Ok headers)
  else match fuel with
       | O => None
       | S fuel' =>
           let header_end := search raw header_begin headers_end newline in
           let key_end := find raw header_begin header_end ":"%char in
           if (key_end =? header_end)%nat then Some (Throw (runtime_error "key end not found"))
           else
             let value_begin := (key_end + 2)%nat in
             if (header_end <? value_begin)%nat then Some Undefined
             else
               parse_headers fuel' raw headers_end (header_end + 2)%nat
                 (umap_insert (range header_begin key_end raw)
                              (range value_begin header_end raw) headers)
       end.

(** [request::parse], run by the constructor [request(raw_request)]. *)
Definition parse (raw : string) : option (result request) :=
  let empty := mk_request raw ∅ "" "" "" "" "" "" "" in
  if String.eqb raw EmptyString then Some (Ok empty)
  else
    let raw_end := String.length raw in
    let headers_end := search raw 0 raw_end delimiter in
    if (headers_end =? raw_end)%nat
    then Some (Throw (runtime_error "there is not delimiter in the raw request"))
    else
      let body := range (headers_end + 4) raw_end raw in
      (* parse request line *)
      let header_end := search raw 0 headers_end newline in
      let request_line := range 0 header_end raw in
      let line_end := String.length request_line in
      (* parse method *)
      let method_end := find request_line 0 line_end SP in
      let method := transform_tolower (range 0 method_end request_line) in
      if (line_end <? method_end + 1)%nat then Some Undefined
      else
        (* parse original_url *)
        let original_url_end := find request_line (method_end + 1) line_end SP in
        let original_url := range (method_end + 1) original_url_end request_line in
        (* parse path *)
        let path_end := find original_url 0 (String.length original_url) "?"%char in
        let path := range 0 path_end original_url in
        if (line_end <? original_url_end + 1)%nat then Some Undefined
        else
          (* parse protocol *)
          let protocol_end := find request_line (original_url_end + 1) line_end "/"%char in
          let protocol :=
            transform_tolower (range (original_url_end + 1) protocol_end request_line) in
          if (line_end <? protocol_end + 1)%nat then Some Undefined
          else
            (* parse http version *)
            let http_version := range (protocol_end + 1) line_end request_line in
            (* parse headers *)
            match parse_headers raw_end raw headers_end (header_end + 2) ∅ with
            | None => None
            | Some (Throw e) => Some (Throw e)
            | Some Undefined => Some Undefined
            | Some (Ok headers) =>
                let '(host, headers') := umap_index "Host" headers in
                let port_begin := find host 0 (String.length host) ":"%char in
                let hostname := range 0 port_begin host in
                Some (Ok (mk_request raw headers' method original_url path protocol
                                     hostname body http_version))
            end.

(** *** class socket *)

Record socket : Type := mk_socket {
  sock_ : Z;
  accepted_sock_ : Z;
  port_ : Z
}.

Definition socket_default : socket := mk_socket 0 0 80.
Definition socket_of_port (port : Z) : socket := mk_socket 0 0 port.

(** [socket::connect] *)
Definition connect (s : socket) (os_socket os_bind : Z) : socket * result unit :=
  let s' := mk_socket os_socket (accepted_sock_ s) (port_ s) in
  if os_socket <? 0 then (s', Throw (system_error "socket"))
  else if negb (os_bind =? 0) then (s', Throw (system_error "bind"))
  else (s', Ok tt).

(** [socket::listen] *)
Definition listen (s : socket) (os_listen : Z) : socket * result unit :=
  if sock_ s =? 0 then (s, Throw (logic_error "socket is not created"))
  else if negb (os_listen =? 0) then (s, Throw (system_error "listen"))
  else (s, Ok tt).

(** [socket::accept]; [os_accept] is what [::accept] returns. *)
Definition accept (s : socket) (os_accept : Z) : socket * result unit :=
  if sock_ s =? 0 then (s, Throw (logic_error "socket is not created"))
  else
    let s' := mk_socket (sock_ s) os_accept (port_ s) in
    if os_accept <? 0 then (s', Throw (system_error "accept")) else (s', Ok tt).

(** [response[last - k] == c] for a [std::vector<char>] of size [last]:
    [None] when the index lies outside the vector. *)
Definition back_is (response : string) (k : nat) (c : ascii) : option bool :=
  let last := String.length response in
  if (last <? k)%nat then None
  else match String.get (last - k) response with
       | Some d => Some (Ascii.eqb d c)
       | None => None
       end.

(** The [&&] chain that ends the receive loop, short-circuit from the left. *)
Definition ends_with_delimiter (response : string) : option bool :=
  match back_is response 1 LF with
  | Some true =>
      match back_is response 2 CR with
      | Some true =>
          match back_is response 3 LF with
          | Some true => back_is response 4 CR
          | o => o
          end
      | o => o
      end
  | o => o
  end.

(** The [while (true)] loop of [socket::recv()] against the answers (buffer
    contents, return value) of successive [::recv] calls. *)
Fixpoint recv_loop (response : string) (answers : list (string * Z)) : polled (result string) :=
  match answers with
  | [] => Waiting (Ok response)
  | (buf, recv_size) :: rest =>
      if recv_size =? 0 then Finished (Ok response)
      else if recv_size <? 0 then Raised (system_error "recv")
      else
        let response' := response +:+ bytes_upto (Z.to_nat recv_size) buf in
        match ends_with_delimiter response' with
        | None => Finished Undefined
        | Some true => Finished (Ok response')
        | Some false => recv_loop response' rest
        end
  end.

(** [socket::recv()] *)
Definition recv (s : socket) (answers : list (string * Z)) : polled (result string) :=
  if accepted_sock_ s =? 0 then Raised (logic_error "socket is not accepted")
  else recv_loop EmptyString answers.

(** [socket::send(buf)] *)
Definition send (s : socket) (buf : string) (os_send : Z) : result unit :=
  if os_send <? 0 then Throw (system_error "") else Ok tt.

(** *** class response *)

Record response : Type := mk_response {
  request_ : request;
  res_headers_ : gmap string string;
  status_ : Z;
  status_message_ : string
}.

Definition response_new (req : request) : response := mk_response req ∅ 200 "".

(** [response::set_header]: [headers_[header] = value]. *)
Definition set_header (res : response) (header value : string) : response :=
  mk_response (request_ res) (<[header := value]> (res_headers_ res))
              (status_ res) (status_message_ res).

(** [response::get_header] *)
Definition get_header (res : response) (header : string) : result string :=
  match res_headers_ res !! header with
  | Some v => Ok v
  | None => Throw out_of_range
  end.

Definition status (res : response) (code : Z) : response :=
  mk_response (request_ res) (res_headers_ res) code (status_message_ res).
Definition status_message (res : response) (message : string) : response :=
  mk_response (request_ res) (res_headers_ res) (status_ res) message.

Fixpoint write_headers (oss : string) (order : list (string * string)) : string :=
  match order with
  | [] => oss
  | (header, value) :: rest =>
      write_headers (oss +:+ header +:+ ": " +:+ value +:+ newline) rest
  end.

(** The text [response::send] assembles: [Content-Length] and
    [Content-Type] are written for every body. *)
Definition render (res : response) (order : list (string * string))
    (table : gmap Z string) (body : string) : string * gmap Z string :=
  let '(message, table') := select_message (status_message_ res) (status_ res) table in
  let oss := EmptyString in
  let oss := oss +:+ protocol_ (request_ res) +:+ "/" +:+ http_version_ (request_ res)
                 +:+ " " +:+ show_int (status_ res) +:+ " " +:+ message +:+ newline in
  let oss := write_headers oss order in
  let oss := oss +:+ "Content-Length: " +:+ show_size (String.length body) +:+ newline in
  let oss := oss +:+ "Content-Type: text/html" +:+ newline in
  let oss := oss +:+ "Connection: Keep-Alive" +:+ newline in
  let oss := oss +:+ newline in
  let oss := oss +:+ body in
  (oss, table').

Definition response_send (res : response) (sock : socket)
    (order : list (string * string)) (table : gmap Z string) (body : string)
    (os_send : Z) : string * gmap Z string * result unit :=
  let '(wire, table') := render res order table body in
  (wire, table', send sock wire os_send).

(** *** class server *)

(** [callbacks_[req.method()]] in [server::listen]: the table of the method,
    and the route tables with an empty table inserted for a method nothing
    was registered under. *)
Definition callbacks_index {H : Type} (method : string)
    (callbacks : gmap string (gmap string H))
    : gmap string H * gmap string (gmap string H) :=
  match callbacks !! method with
  | Some table => (table, callbacks)
  | None => (∅, <[method := ∅]> callbacks)
  end.

(** The handler loop of [server::listen] over the method's table, iterated
    in the order [order]: every entry whose path equals the path of the
    request is invoked. The handlers invoked, in order. *)
Definition invoked {H : Type} (order : list (string * H)) (path : string) : list H :=
  List.map snd (List.filter (λ entry, String.eqb (fst entry) path) order).

End OnePass.

(** ** The wire format in the words of the specification

    The status line [<protocol>/<version> <code> <message>], the header
    lines [name: value], and the status texts of the default table; the
    renderers above are compared with these. *)

Definition status_line (protocol version : string) (code : Z) (message : string) : string :=
  protocol +:+ "/" +:+ version +:+ " " +:+ show_int code +:+ " " +:+ message +:+ newline.

Fixpoint header_lines (order : list (string * string)) : string :=
  match order with
  | [] => EmptyString
  | (header, value) :: rest => (header +:+ ": " +:+ value +:+ newline) +:+ header_lines rest
  end.

Definition default_status_text (code : Z) : string :=
  if code =? 200 then "OK"
  else if code =? 400 then "Bad Request"
  else if code =? 404 then "Not Found"
  else EmptyString.

(** The message of the status line: the override when one was set (a
    non-empty text), the default text of the code otherwise. *)
Definition message_text (status_message : string) (code : Z) : string :=
  if String.eqb status_message EmptyString then default_status_text code
  else status_message.

(** The static status table after the lookups of earlier [send] calls. *)
Definition table_after (codes : list Z) : gmap Z string :=
  fold_left (λ table code, snd (status_index code table)) codes default_status_messages.

(** A header line [line] occurs in the text [wire]. *)
Definition has_line (wire line : string) : Prop :=
  ∃ pre post : string, wire = pre +:+ newline +:+ line +:+ newline +:+ post.

(** Requests used as concrete inputs below: a request parsed to the end, one
    at the start of a header line, one inside the version of the request
    line, and a request of the one-pass variant. *)
Definition request_at (state : parse_state.t) : Incremental.request :=
  Incremental.mk_request ∅ "GET" "/" "/" "HTTP" "" "" "1.1" state.
Definition one_pass_request : OnePass.request :=
  OnePass.mk_request "" ∅ "get" "/" "/" "http" "" "" "1.1".

(** A request with a [Host] header, whole and cut inside the header name. *)
Definition host_request : string :=
  "GET / HTTP/1.1" +:+ newline +:+ "Host: a" +:+ delimiter.
Definition host_request_chunks : list string :=
  ["GET / HTTP/1.1" +:+ newline +:+ "Ho"; "st: a" +:+ delimiter].
Definition host_port_request : string :=
  "GET / HTTP/1.1" +:+ newline +:+ "Host: example.com:8080" +:+ delimiter.
Definition duplicate_host_request : string :=
  "GET / HTTP/1.1" +:+ newline +:+ "Host: a" +:+ newline +:+ "Host: b" +:+ delimiter.

(** The response after [set_header("Content-Type", "text/plain")] and
    [set_header("X-Id", "7")] in the incremental variant. *)
Definition two_headers_response : Incremental.response :=
  Incremental.set_header
    (Incremental.set_header (Incremental.response_new (request_at parse_state.done))
                            "Content-Type" "text/plain")
    "X-Id" "7".

(** The request line of the example in the specification, with its CRLF. *)
Definition request_line_example : string := "GET /foo?x=1 HTTP/1.1" +:+ newline.

(** ** Well-formed input, for the statements about whole requests *)

(** The request target: a path, with a query behind a question mark or
    without one. *)
Definition request_target (p : string) (q : option string) : string :=
  match q with
  | Some q' => p +:+ String "?"%char q'
  | None => p
  end.

(** A request line [method SP target SP protocol/version CRLF]. *)
Definition request_line_text (m p : string) (q : option string) (proto ver : string) : string :=
  m +:+ String SP (request_target p q +:+ String SP (proto +:+ String "/"%char (ver +:+ newline))).

(** A header line: the first byte of the name, the rest of the name, the
    number of spaces after the colon, the value. *)
Record header_line : Type := mk_header_line {
  hl_first : ascii;
  hl_name : string;
  hl_pad : nat;
  hl_value : string
}.

Definition header_line_text (l : header_line) : string :=
  String (hl_first l) (hl_name l) +:+ ":" +:+ spaces (hl_pad l) +:+ hl_value l.

Definition header_line_ok (l : header_line) : Prop :=
  hl_first l ≠ CR ∧ no_char ":" (hl_name l) = true
  ∧ starts_with SP (hl_value l) = false ∧ no_char CR (hl_value l) = true.

(** The header lines, each with its CRLF, and the blank line behind them. *)
Fixpoint header_block (ls : list header_line) : string :=
  match ls with
  | [] => newline
  | l :: rest => (header_line_text l +:+ newline) +:+ header_block rest
  end.

(** The map the lines leave, inserted in order without overwriting. *)
Definition store_lines (ls : list header_line) (h : gmap string string) : gmap string string :=
  fold_left (λ acc l, umap_insert (transform_tolower (String (hl_first l) (hl_name l)))
                                  (hl_value l) acc) ls h.

(** Chunks none of which ends inside a header line: after each call the
    parser is neither in a header name nor in a header value. *)
Fixpoint cuts_between_lines (r : Incremental.request) (chunks : list string) : Prop :=
  match chunks with
  | [] => True
  | ch :: rest =>
      Incremental.state_ (Incremental.feed r ch) ≠ parse_state.header_key
      ∧ Incremental.state_ (Incremental.feed r ch) ≠ parse_state.header_value
      ∧ cuts_between_lines (Incremental.feed r ch) rest
  end.

(** An answer of [::recv] that only says "no data yet". *)
Definition would_block (EAGAIN : Z) (answer : string * Z * Z) : bool :=
  ((snd (fst answer) <? 0) && (snd answer =? EAGAIN))%bool.

(** What the parser keeps true of a request and the pending buffer: the
    state [body] is not entered, stored names and the pending name are
    lower-case, stored values and the pending value do not begin with a
    space, and the buffer is empty outside a header line. *)
Definition lowercase (s : string) : bool := all_chars (λ c, negb (is_upper c)) s.

Definition headers_normal (h : gmap string string) : Prop :=
  ∀ k v, h !! k = Some v → lowercase k = true ∧ starts_with SP v = false.

Definition parser_invariant (st : Incremental.request * Incremental.header_buffer) : Prop :=
  Incremental.state_ (fst st) ≠ parse_state.body
  ∧ headers_normal (Incremental.headers_ (fst st))
  ∧ lowercase (fst (snd st)) = true
  ∧ starts_with SP (snd (snd st)) = false
  ∧ (snd st = Incremental.header_buffer_empty
     ∨ Incremental.state_ (fst st) = parse_state.header_key
     ∨ Incremental.state_ (fst st) = parse_state.header_value).

(** The request line of a raw request as [request::parse] cuts it: the bytes
    before the first CRLF of the header block. *)
Definition request_line_of (raw : string) : string :=
  OnePass.range 0
    (OnePass.search raw 0 (OnePass.search raw 0 (String.length raw) delimiter) newline)
    raw.

(** ** Well-formed requests of the one-pass variant *)

(** A request line without its CRLF. *)
Definition request_line_bare (m p : string) (q : option string) (proto ver : string) : string :=
  m +:+ String SP (request_target p q +:+ String SP (proto +:+ String "/"%char ver)).

Definition request_line_clean (m p : string) (q : option string) (proto ver : string) : Prop :=
  no_char SP m = true ∧ no_char CR m = true
  ∧ no_char SP p = true ∧ no_char "?" p = true ∧ no_char CR p = true
  ∧ (∀ q', q = Some q' → no_char SP q' = true ∧ no_char CR q' = true)
  ∧ no_char "/" proto = true ∧ no_char CR proto = true
  ∧ no_char CR ver = true.

(** A header line [Name: value], a colon and one space between the two, and
    the lines of a header block, each behind a CRLF. *)
Definition name_value_text (l : string * string) : string :=
  fst l +:+ String ":"%char (String SP (snd l)).

Definition name_value_ok (l : string * string) : Prop :=
  no_char ":" (fst l) = true ∧ no_char CR (fst l) = true ∧ no_char CR (snd l) = true.

Fixpoint name_value_lines (ls : list (string * string)) : string :=
  match ls with
  | [] => EmptyString
  | l :: rest => newline +:+ (name_value_text l +:+ name_value_lines rest)
  end.

(** The map the lines leave, names as sent, inserted in order without
    overwriting. *)
Definition store_pairs (ls : list (string * string)) (h : gmap string string)
    : gmap string string :=
  fold_left (λ acc l, umap_insert (fst l) (snd l) acc) ls h.

(** A whole request: request line, header lines, blank line, body. *)
Definition one_pass_request_text (m p : string) (q : option string) (proto ver : string)
    (ls : list (string * string)) (body : string) : string :=
  request_line_bare m p q proto ver
  +:+ (name_value_lines ls +:+ (delimiter +:+ body)).

(** The name under which the incremental parser stores a header line. *)
Definition stored_name (l : header_line) : string :=
  transform_tolower (String (hl_first l) (hl_name l)).

(** * Properties *)

(** ** Strings *)

Lemma append_cons (c : ascii) (a b : string) : String c a +:+ b = String c (a +:+ b).
Proof. reflexivity. Qed.

Lemma append_nil_l (s : string) : "" +:+ s = s.
Proof. reflexivity. Qed.

Lemma append_nil_r (s : string) : s +:+ "" = s.
Proof.
  induction s as [|c s IH]; [reflexivity |]. now rewrite append_cons, IH.
Qed.

Lemma append_assoc (a b c : string) : (a +:+ b) +:+ c = a +:+ (b +:+ c).
Proof.
  induction a as [|x a IH]; [reflexivity |]. now rewrite !append_cons, IH.
Qed.

Lemma push_back_cons (c : ascii) (s : string) (d : ascii) :
  push_back (String c s) d = String c (push_back s d).
Proof. reflexivity. Qed.

Lemma push_back_append (a b : string) (c : ascii) :
  push_back (a +:+ b) c = a +:+ push_back b c.
Proof. unfold push_back. apply append_assoc. Qed.

Lemma bytes_upto_length (s : string) : bytes_upto (String.length s) s = s.
Proof. induction s as [|c s IH]; simpl; [reflexivity | now rewrite IH]. Qed.

Lemma ascii_eqb_false (a b : ascii) : a ≠ b → Ascii.eqb a b = false.
Proof. intros H. now apply Ascii.eqb_neq. Qed.

(** ** The incremental parser *)

Section IncrementalParser.
Import Incremental.

Lemma consume_cons (st : request * header_buffer) (c : ascii) (bytes : string) :
  consume st (String c bytes) = consume (step st c) bytes.
Proof. reflexivity. Qed.

Lemma consume_app (st : request * header_buffer) (a b : string) :
  consume st (a +:+ b) = consume (consume st a) b.
Proof.
  revert st. induction a as [|c a IH]; intros st; [reflexivity |].
  rewrite append_cons, !consume_cons. apply IH.
Qed.

Lemma feed_consume (r : request) (chunk : string) :
  feed r chunk = fst (consume (r, header_buffer_empty) chunk).
Proof.
  unfold feed, parse_and_build. now rewrite Nat2Z.id, bytes_upto_length.
Qed.

Lemma set_state_same (r : request) : set_state r (state_ r) = r.
Proof. now destruct r. Qed.

(** In a terminal state a byte changes neither the request nor the buffer. *)
Lemma step_terminal (r : request) (hb : header_buffer) (it : ascii) :
  state_ r = parse_state.done ∨ state_ r = parse_state.invalid →
  step (r, hb) it = (r, hb).
Proof.
  intros [H | H]; unfold step; rewrite H; [| reflexivity].
  now rewrite <- H, set_state_same.
Qed.

Lemma consume_terminal (r : request) (hb : header_buffer) (bytes : string) :
  state_ r = parse_state.done ∨ state_ r = parse_state.invalid →
  consume (r, hb) bytes = (r, hb).
Proof.
  intros H. induction bytes as [|c bytes IH]; [reflexivity |].
  now rewrite consume_cons, step_terminal.
Qed.

Lemma parse_and_build_terminal (r : request) (buffer : string) (recv_size : Z) :
  state_ r = parse_state.done ∨ state_ r = parse_state.invalid →
  parse_and_build r buffer recv_size = r.
Proof. intros H. unfold parse_and_build. now rewrite consume_terminal. Qed.

Lemma calls_terminal (r : request) (bufs : list (string * Z)) :
  state_ r = parse_state.done ∨ state_ r = parse_state.invalid →
  calls r bufs = r.
Proof.
  intros H. unfold calls. induction bufs as [|b bufs IH]; simpl; [reflexivity |].
  now rewrite parse_and_build_terminal.
Qed.

(** A line terminator that is not completed by LF: the states [cr] and
    [crlfcr] are the ones entered on a CR. *)
Lemma step_bad_terminator (r : request) (hb : header_buffer) (c : ascii) :
  state_ r = parse_state.cr ∨ state_ r = parse_state.crlfcr → c ≠ LF →
  step (r, hb) c = (set_state r parse_state.invalid, hb).
Proof.
  intros [H | H] Hc; unfold step; rewrite H; now rewrite ascii_eqb_false.
Qed.

Lemma step_CR_state (r : request) (hb : header_buffer) :
  state_ r = parse_state.http_version ∨ state_ r = parse_state.header_value
    ∨ state_ r = parse_state.crlf →
  state_ (fst (step (r, hb) CR)) = parse_state.cr
    ∨ state_ (fst (step (r, hb) CR)) = parse_state.crlfcr.
Proof.
  intros [H | [H | H]]; unfold step; rewrite H; simpl; auto.
Qed.

End IncrementalParser.

Section TerminalStates.
Import Incremental.

(** C2: [done] and [invalid] are terminal. Whatever buffers later calls of
    [parse_and_build] are given, a request in one of these two states comes
    back unchanged, state and every field. And a CR that ends the request
    line, ends a header value or starts the blank line, when the byte after
    it is not LF, leaves the parser in [invalid] with the fields it had
    after that CR, however many bytes and calls follow. *)
Theorem terminal_states_absorb :
  (∀ (r : request) (bufs : list (string * Z)),
      state_ r = parse_state.done ∨ state_ r = parse_state.invalid →
      calls r bufs = r)
  ∧ (∀ (r : request) (hb : header_buffer) (c : ascii) (rest : string)
       (bufs : list (string * Z)),
      state_ r = parse_state.http_version ∨ state_ r = parse_state.header_value
        ∨ state_ r = parse_state.crlf →
      c ≠ LF →
      calls (fst (consume (r, hb) (String CR (String c rest)))) bufs
      = set_state (fst (step (r, hb) CR)) parse_state.invalid).
Proof.
  split.
  - intros r bufs H. now apply calls_terminal.
  - intros r hb c rest bufs Hst Hc.
    rewrite !consume_cons.
    destruct (step (r, hb) CR) as [r1 hb1] eqn:E.
    assert (H1 : state_ r1 = parse_state.cr ∨ state_ r1 = parse_state.crlfcr).
    { pose proof (step_CR_state r hb Hst) as H. now rewrite E in H. }
    rewrite (step_bad_terminator r1 hb1 c H1 Hc).
    rewrite consume_terminal by (right; reflexivity).
    simpl. apply calls_terminal. right; reflexivity.
Qed.

Lemma terminal_states_absorb_witness :
  calls (request_at parse_state.done) [("Host: a", 7); ("zzz", 2)]
  = request_at parse_state.done
  ∧ calls (fst (consume (request_at parse_state.http_version, header_buffer_empty)
                         (String CR (String "X"%char "yz"))))
          [("Host: a", 7)]
    = set_state (fst (step (request_at parse_state.http_version, header_buffer_empty) CR))
                parse_state.invalid.
Proof.
  split.
  - apply (proj1 terminal_states_absorb). left. reflexivity.
  - apply (proj2 terminal_states_absorb).
    + left. reflexivity.
    + discriminate.
Defined.

End TerminalStates.

Section Chunking.
Import Incremental.

(** The header buffer never decides the state or a field outside the header
    map: a byte moves two requests that agree on [line_fields] to requests
    that agree again, whatever the two buffers hold. *)
Lemma step_line_fields (r r' : request) (hb hb' : header_buffer) (c : ascii) :
  line_fields r = line_fields r' →
  line_fields (fst (step (r, hb) c)) = line_fields (fst (step (r', hb') c)).
Proof.
  destruct r as [h m o p pr hn b v s], r' as [h' m' o' p' pr' hn' b' v' s'].
  unfold line_fields; simpl. intros H; inversion H; subst; clear H.
  unfold step; simpl.
  destruct s'; simpl;
    repeat match goal with
           | |- context [if ?b then _ else _] => destruct b eqn:?; simpl
           end;
    try reflexivity;
    exfalso;
    repeat match goal with
           | H : (_ && _)%bool = true |- _ => apply andb_prop in H as [H _]
           | H : Ascii.eqb _ _ = true |- _ => apply Ascii.eqb_eq in H
           end;
    subst; discriminate.
Qed.

Lemma consume_line_fields (bytes : string) :
  ∀ (r r' : request) (hb hb' : header_buffer),
    line_fields r = line_fields r' →
    line_fields (fst (consume (r, hb) bytes))
    = line_fields (fst (consume (r', hb') bytes)).
Proof.
  induction bytes as [|c bytes IH]; intros r r' hb hb' H; [exact H |].
  rewrite !consume_cons.
  pose proof (step_line_fields r r' hb hb' c H) as Hs.
  destruct (step (r, hb) c) as [r1 hb1], (step (r', hb') c) as [r1' hb1'].
  now apply IH.
Qed.

(** What chunking does preserve: the state and every field but the header
    map are those of a single call on the whole stream. *)
Lemma feed_all_line_fields (chunks : list string) (r : request) :
  line_fields (feed_all r chunks) = line_fields (feed r (join chunks)).
Proof.
  revert r. induction chunks as [|ch chunks IH]; intros r.
  - now rewrite feed_consume.
  - change (feed_all r (ch :: chunks)) with (feed_all (feed r ch) chunks).
    rewrite IH, !feed_consume.
    change (join (ch :: chunks)) with (ch +:+ join chunks).
    rewrite consume_app.
    destruct (consume (r, header_buffer_empty) ch) as [r1 hb1].
    now apply consume_line_fields.
Qed.

(** C1: the request [GET / HTTP/1.1 CRLF Host: a CRLF CRLF] fed in one call
    stores the header [host: a]; cut after [Ho] and fed in two calls it
    stores [st: a], and fed one byte per call it stores a single header with
    an empty name and an empty value: the pending name and value live in a
    local of [parse_and_build] and are lost between calls. *)
Theorem chunked_feed_loses_header_buffer :
  join host_request_chunks = host_request
  ∧ headers_ (feed request_default host_request) = {[ "host" := "a" ]}
  ∧ headers_ (feed_all request_default host_request_chunks) = {[ "st" := "a" ]}
  ∧ headers_ (feed_all request_default (bytewise host_request)) = {[ "" := "" ]}
  ∧ state_ (feed_all request_default host_request_chunks) = parse_state.done.
Proof. vm_compute. repeat split; reflexivity. Qed.

End Chunking.

(** ** Header lines in the incremental parser *)

Section HeaderLines.
Import Incremental.

Lemma umap_insert_fresh (k v : string) (m : gmap string string) :
  m !! k = None → umap_insert k v m !! k = Some v.
Proof. intros H. unfold umap_insert. rewrite H. apply lookup_insert_eq. Qed.

Lemma umap_insert_keeps (k v k0 v0 : string) (m : gmap string string) :
  m !! k0 = Some v0 → umap_insert k v m !! k0 = Some v0.
Proof.
  intros H. unfold umap_insert. destruct (m !! k) eqn:E; [exact H |].
  rewrite lookup_insert_ne; [exact H |]. intros ->. congruence.
Qed.

Lemma no_char_cons (c d : ascii) (s : string) :
  no_char c (String d s) = true → d ≠ c ∧ no_char c s = true.
Proof.
  unfold no_char; simpl. intros H. apply andb_prop in H as [H1 H2].
  split; [| exact H2]. apply negb_true_iff in H1. now apply Ascii.eqb_neq.
Qed.

(** The bytes of a header name: appended lower-cased until the colon. *)
Lemma consume_header_key (name : string) :
  ∀ (r : request) (k v : string),
    state_ r = parse_state.header_key → no_char ":" name = true →
    consume (r, (k, v)) name = (r, (k +:+ transform_tolower name, v)).
Proof.
  induction name as [|c name IH]; intros r k v Hst Hn.
  - simpl. now rewrite append_nil_r.
  - apply no_char_cons in Hn as [Hc Hn].
    rewrite consume_cons. unfold step at 1. rewrite Hst.
    rewrite (ascii_eqb_false _ _ Hc). simpl fst; simpl snd.
    rewrite IH by assumption. unfold push_back. now rewrite append_assoc.
Qed.

(** Spaces in front of a value are skipped while the value is still empty. *)
Lemma consume_leading_spaces (n : nat) (r : request) (k : string) :
  state_ r = parse_state.header_value →
  consume (r, (k, EmptyString)) (spaces n) = (r, (k, EmptyString)).
Proof.
  intros Hst. induction n as [|n IH]; [reflexivity |].
  simpl spaces. rewrite consume_cons. unfold step at 1. rewrite Hst.
  simpl. exact IH.
Qed.

(** Once the value has a first byte every byte but CR is appended. *)
Lemma consume_value_tail (value : string) :
  ∀ (r : request) (k v : string),
    state_ r = parse_state.header_value → v ≠ EmptyString →
    no_char CR value = true →
    consume (r, (k, v)) value = (r, (k, v +:+ value)).
Proof.
  induction value as [|c value IH]; intros r k v Hst Hv Hn.
  - simpl. now rewrite append_nil_r.
  - apply no_char_cons in Hn as [Hc Hn].
    rewrite consume_cons. unfold step at 1. rewrite Hst. simpl fst; simpl snd.
    assert (E : String.eqb v EmptyString = false) by now apply String.eqb_neq.
    rewrite E, andb_false_r, (ascii_eqb_false _ _ Hc).
    rewrite IH; try assumption.
    + unfold push_back. now rewrite append_assoc.
    + unfold push_back. destruct v; discriminate.
Qed.

Lemma consume_value (value : string) (r : request) (k : string) :
  state_ r = parse_state.header_value →
  starts_with SP value = false → no_char CR value = true →
  consume (r, (k, EmptyString)) value = (r, (k, value)).
Proof.
  intros Hst Hsp Hn. destruct value as [|c value]; [reflexivity |].
  apply no_char_cons in Hn as [Hc Hn]. simpl in Hsp.
  rewrite consume_cons. unfold step at 1. rewrite Hst. simpl fst; simpl snd.
  rewrite Hsp, (ascii_eqb_false _ _ Hc). simpl andb. cbv iota.
  rewrite consume_value_tail; try assumption; [reflexivity | discriminate].
Qed.

(** A header line up to its CR, read inside one call from the state [crlf]
    the previous line left: nothing is stored yet, the buffer holds the
    lower-cased name and the value without its leading spaces. *)
Lemma consume_header_line_open (r : request) (c0 : ascii) (name : string) (n : nat)
    (value : string) :
  state_ r = parse_state.crlf → c0 ≠ CR → no_char ":" name = true →
  starts_with SP value = false → no_char CR value = true →
  consume (r, header_buffer_empty) (String c0 name +:+ ":" +:+ spaces n +:+ value)
  = (set_state r parse_state.header_value,
     (transform_tolower (String c0 name), value)).
Proof.
  intros Hst Hc0 Hname Hsp Hcr.
  rewrite append_cons, consume_cons. unfold step at 1. rewrite Hst.
  rewrite (ascii_eqb_false _ _ Hc0). simpl fst; simpl snd.
  rewrite consume_app, consume_header_key by (assumption || reflexivity).
  change (":" +:+ spaces n +:+ value) with (String ":"%char (spaces n +:+ value)).
  rewrite consume_cons. unfold step at 1. simpl.
  rewrite consume_app, (consume_leading_spaces n) by reflexivity.
  rewrite consume_value by (assumption || reflexivity).
  reflexivity.
Qed.

(** The CR that ends the value inserts the pair and clears the buffer. *)
Lemma consume_header_line (r : request) (c0 : ascii) (name : string) (n : nat)
    (value : string) :
  state_ r = parse_state.crlf → c0 ≠ CR → no_char ":" name = true →
  starts_with SP value = false → no_char CR value = true →
  consume (r, header_buffer_empty)
          ((String c0 name +:+ ":" +:+ spaces n +:+ value) +:+ String CR "")
  = (set_state (set_headers r (umap_insert (transform_tolower (String c0 name)) value
                                           (headers_ r)))
               parse_state.cr,
     header_buffer_empty).
Proof.
  intros Hst Hc0 Hname Hsp Hcr.
  rewrite consume_app, consume_header_line_open by assumption.
  reflexivity.
Qed.

Lemma tolower_not_upper (c : ascii) : is_upper (tolower c) = false.
Proof. destruct c as [[] [] [] [] [] [] [] []]; reflexivity. Qed.

Lemma transform_tolower_lowercase (s : string) :
  all_chars (λ c, negb (is_upper c)) (transform_tolower s) = true.
Proof.
  induction s as [|c s IH]; [reflexivity |].
  simpl. now rewrite tolower_not_upper, IH.
Qed.

(** A byte never removes a header nor changes a stored value. *)
Lemma step_keeps_header (r : request) (hb : header_buffer) (c : ascii) (k v : string) :
  headers_ r !! k = Some v → headers_ (fst (step (r, hb) c)) !! k = Some v.
Proof.
  intros H. unfold step.
  destruct (state_ r); simpl;
    repeat match goal with
           | |- context [if ?b then _ else _] => destruct b; simpl
           end;
    try exact H.
  now apply umap_insert_keeps.
Qed.

Lemma consume_keeps_header (bytes : string) :
  ∀ (r : request) (hb : header_buffer) (k v : string),
    headers_ r !! k = Some v → headers_ (fst (consume (r, hb) bytes)) !! k = Some v.
Proof.
  induction bytes as [|c bytes IH]; intros r hb k v H; [exact H |].
  rewrite consume_cons.
  pose proof (step_keeps_header r hb c k v H) as Hs.
  destruct (step (r, hb) c) as [r1 hb1]. now apply IH.
Qed.

Lemma calls_keeps_header (bufs : list (string * Z)) :
  ∀ (r : request) (k v : string),
    headers_ r !! k = Some v → headers_ (calls r bufs) !! k = Some v.
Proof.
  induction bufs as [|b bufs IH]; intros r k v H; [exact H |].
  change (calls r (b :: bufs)) with (calls (parse_and_build r (fst b) (snd b)) bufs).
  apply IH. unfold parse_and_build. now apply consume_keeps_header.
Qed.

(** A header line read inside one call, starting where the previous line
    ended: the pair is stored under the lower-cased name, with the spaces in
    front of the value dropped, at the CR that ends the value and not
    before; the insertion keeps an entry already stored under the name. *)
Lemma header_line_stored (r : request) (c0 : ascii) (name : string)
    (n : nat) (value : string) :
  state_ r = parse_state.crlf → c0 ≠ CR → no_char ":" name = true →
  starts_with SP value = false → no_char CR value = true →
  headers_ (feed r (String c0 name +:+ ":" +:+ spaces n +:+ value)) = headers_ r
  ∧ headers_ (feed r ((String c0 name +:+ ":" +:+ spaces n +:+ value) +:+ String CR ""))
    = umap_insert (transform_tolower (String c0 name)) value (headers_ r)
  ∧ (headers_ r !! transform_tolower (String c0 name) = None →
     headers_ (feed r ((String c0 name +:+ ":" +:+ spaces n +:+ value) +:+ String CR ""))
       !! transform_tolower (String c0 name) = Some value)
  ∧ all_chars (λ c, negb (is_upper c)) (transform_tolower (String c0 name)) = true.
Proof.
  intros Hst Hc0 Hname Hsp Hcr.
  rewrite !feed_consume, consume_header_line, consume_header_line_open by assumption.
  simpl fst. repeat split.
  - intros Hfresh. simpl. now apply umap_insert_fresh.
  - apply transform_tolower_lowercase.
Qed.

End HeaderLines.

(** ** The one-pass parser *)

Section OnePassParser.
Import OnePass.

Lemma bytes_upto_length_le (n : nat) (s : string) :
  (String.length (bytes_upto n s) ≤ n)%nat.
Proof.
  revert s. induction n as [|n IH]; intros s; [simpl; lia |].
  destruct s as [|c s]; simpl; [lia |]. specialize (IH s). lia.
Qed.

Lemma range_length_le (first last : nat) (s : string) :
  (String.length (range first last s) ≤ last - first)%nat.
Proof. apply bytes_upto_length_le. Qed.

Lemma find_sub_unfold (pat s : string) :
  find_sub pat s
  = if String.prefix pat s then O
    else match s with
         | EmptyString => O
         | String _ rest => S (find_sub pat rest)
         end.
Proof. destruct s; reflexivity. Qed.

Lemma find_sub_le (pat s : string) : (find_sub pat s ≤ String.length s)%nat.
Proof.
  induction s as [|c s IH]; rewrite find_sub_unfold.
  - destruct (String.prefix pat ""); simpl; lia.
  - destruct (String.prefix pat (String c s)); simpl; lia.
Qed.

Lemma find_char_le (c : ascii) (s : string) : (find_char c s ≤ String.length s)%nat.
Proof.
  induction s as [|d s IH]; simpl; [lia |]. destruct (Ascii.eqb d c); lia.
Qed.

(** [std::search] and [std::find] return an iterator of the range they
    were given. *)
Lemma search_bounds (s : string) (first last : nat) (pat : string) :
  (first ≤ last → first ≤ search s first last pat ≤ last)%nat.
Proof.
  intros H. unfold search.
  pose proof (find_sub_le pat (range first last s)).
  pose proof (range_length_le first last s). lia.
Qed.

Lemma find_bounds (s : string) (first last : nat) (c : ascii) :
  (first ≤ last → first ≤ find s first last c ≤ last)%nat.
Proof.
  intros H. unfold find.
  pose proof (find_char_le c (range first last s)).
  pose proof (range_length_le first last s). lia.
Qed.

Lemma parse_headers_unfold (fuel : nat) (raw : string) (headers_end header_begin : nat)
    (headers : gmap string string) :
  parse_headers (S fuel) raw headers_end header_begin headers
  = if (headers_end <=? header_begin)%nat then Some (Ok headers)
    else
      let header_end := search raw header_begin headers_end newline in
      let key_end := find raw header_begin header_end ":"%char in
      if (key_end =? header_end)%nat then Some (Throw (runtime_error "key end not found"))
      else if (header_end <? key_end + 2)%nat then Some Undefined
      else parse_headers fuel raw headers_end (header_end + 2)%nat
             (umap_insert (range header_begin key_end raw)
                          (range (key_end + 2) header_end raw) headers).
Proof. reflexivity. Qed.

(** The header loop ends: a bound of [headers_end - header_begin] turns is
    never exhausted. *)
Lemma parse_headers_total (fuel : nat) :
  ∀ (raw : string) (headers_end header_begin : nat) (headers : gmap string string),
    (headers_end ≤ header_begin + fuel)%nat →
    parse_headers fuel raw headers_end header_begin headers ≠ None.
Proof.
  induction fuel as [|fuel IH]; intros raw he hb h Hle.
  - simpl. destruct (he <=? hb)%nat eqn:E; [discriminate |].
    apply Nat.leb_gt in E. lia.
  - rewrite parse_headers_unfold.
    destruct (he <=? hb)%nat eqn:E; [discriminate |].
    apply Nat.leb_gt in E. cbv zeta.
    destruct (_ =? _)%nat; [discriminate |].
    destruct (_ <? _)%nat; [discriminate |].
    apply IH.
    pose proof (search_bounds raw hb he newline). lia.
Qed.

(** [request::parse] returns, throws or is undefined: the model never runs
    out of turns. *)
Lemma parse_total (raw : string) : parse raw ≠ None.
Proof.
  unfold parse.
  destruct (String.eqb raw ""); [discriminate |]. cbv zeta.
  destruct (_ =? _)%nat; [discriminate |].
  destruct (_ <? _)%nat; [discriminate |].
  destruct (_ <? _)%nat; [discriminate |].
  destruct (_ <? _)%nat; [discriminate |].
  pose proof (parse_headers_total (String.length raw) raw
                (search raw 0 (String.length raw) delimiter)
                (search raw 0 (search raw 0 (String.length raw) delimiter) newline + 2)
                ∅) as Htot.
  destruct (parse_headers _ _ _ _ _) as [[h | e |] |].
  - destruct (umap_index "Host" h). discriminate.
  - discriminate.
  - discriminate.
  - exfalso. apply Htot; [| reflexivity].
    pose proof (search_bounds raw 0 (String.length raw) delimiter). lia.
Qed.

(** [emplace] in the header loop never replaces a stored header. *)
Lemma parse_headers_keeps (fuel : nat) :
  ∀ (raw : string) (headers_end header_begin : nat) (h h' : gmap string string)
    (k v : string),
    parse_headers fuel raw headers_end header_begin h = Some (Ok h') →
    h !! k = Some v → h' !! k = Some v.
Proof.
  induction fuel as [|fuel IH]; intros raw he hb h h' k v Hp Hk.
  - simpl in Hp. destruct (he <=? hb)%nat; [| discriminate]. congruence.
  - rewrite parse_headers_unfold in Hp.
    destruct (he <=? hb)%nat; [congruence |]. cbv zeta in Hp.
    destruct (_ =? _)%nat; [discriminate |].
    destruct (_ <? _)%nat; [discriminate |].
    eapply IH; [exact Hp |]. now apply umap_insert_keeps.
Qed.

(** The first header line the loop reads is stored unless its name is
    already there. *)
Lemma parse_headers_first (fuel : nat) (raw : string) (headers_end header_begin : nat)
    (h h' : gmap string string) :
  (header_begin < headers_end)%nat →
  parse_headers fuel raw headers_end header_begin h = Some (Ok h') →
  let header_end := search raw header_begin headers_end newline in
  let key_end := find raw header_begin header_end ":"%char in
  h !! range header_begin key_end raw = None →
  h' !! range header_begin key_end raw = Some (range (key_end + 2) header_end raw).
Proof.
  intros Hlt Hp header_end key_end Hfresh.
  destruct fuel as [|fuel].
  - simpl in Hp. destruct (headers_end <=? header_begin)%nat eqn:E; [| discriminate].
    apply Nat.leb_le in E. lia.
  - rewrite parse_headers_unfold in Hp.
    destruct (headers_end <=? header_begin)%nat eqn:E.
    { apply Nat.leb_le in E. lia. }
    cbv zeta in Hp. fold header_end in Hp. fold key_end in Hp.
    destruct (key_end =? header_end)%nat; [discriminate |].
    destruct (header_end <? key_end + 2)%nat; [discriminate |].
    eapply parse_headers_keeps; [exact Hp |]. now apply umap_insert_fresh.
Qed.

(** Counterexample to C3 as stated: the one-pass parser stores the header
    name as it was sent, so the lower-cased name finds nothing, and the
    spaces in front of the value are not all dropped. *)
Lemma one_pass_keeps_header_case :
  ∃ req : request,
    parse ("GET / HTTP/1.1" +:+ newline +:+ "Content-Type:  text/html" +:+ delimiter)
    = Some (Ok req)
    ∧ headers_ req !! "content-type" = None
    ∧ headers_ req !! "Content-Type" = Some " text/html".
Proof.
  eexists. split; [vm_compute; reflexivity |]. split; vm_compute; reflexivity.
Qed.

End OnePassParser.

(** ** The request line *)

Section RequestLine.

(** C4: the request line [GET /foo?x=1 HTTP/1.1 CRLF]. The incremental
    parser yields method [GET], path [/foo], protocol [HTTP] and version
    [1.1], the query left out of the path. The one-pass parser, given the
    line and the CRLF that ends the header block, lower-cases method and
    protocol to [get] and [http], yields the same path and version, and
    keeps the query in [original_url_]. *)
Theorem request_line_fields :
  (∃ r : Incremental.request,
     Incremental.feed Incremental.request_default request_line_example = r
     ∧ Incremental.method_ r = "GET" ∧ Incremental.path_ r = "/foo"
     ∧ Incremental.protocol_ r = "HTTP" ∧ Incremental.http_version_ r = "1.1"
     ∧ Incremental.state_ r = parse_state.crlf)
  ∧ (∃ req : OnePass.request,
       OnePass.parse (request_line_example +:+ newline) = Some (Ok req)
       ∧ OnePass.method_ req = "get" ∧ OnePass.path_ req = "/foo"
       ∧ OnePass.protocol_ req = "http" ∧ OnePass.http_version_ req = "1.1"
       ∧ OnePass.original_url_ req = "/foo?x=1").
Proof.
  split.
  - eexists. split; [vm_compute; reflexivity |].
    vm_compute. repeat split; reflexivity.
  - eexists. split; [vm_compute; reflexivity |].
    vm_compute. repeat split; reflexivity.
Qed.

(** Counterexample to C4 as stated: in the incremental parser
    [original_url_] is a copy of the path and holds no query; in the
    one-pass parser the method is not [GET], and the line without the end of
    the header block is refused. *)
Lemma request_line_claim_fails :
  ¬ (∃ r : Incremental.request,
       Incremental.feed Incremental.request_default request_line_example = r
       ∧ Incremental.method_ r = "GET" ∧ Incremental.path_ r = "/foo"
       ∧ Incremental.protocol_ r = "HTTP" ∧ Incremental.http_version_ r = "1.1"
       ∧ Incremental.original_url_ r = "/foo?x=1")
  ∧ Incremental.original_url_
      (Incremental.feed Incremental.request_default request_line_example) = "/foo"
  ∧ ¬ (∃ req : OnePass.request,
         OnePass.parse (request_line_example +:+ newline) = Some (Ok req)
         ∧ OnePass.method_ req = "GET")
  ∧ OnePass.parse request_line_example
    = Some (Throw (runtime_error "there is not delimiter in the raw request")).
Proof.
  split; [| split; [| split]].
  - intros (r & <- & _ & _ & _ & _ & H). vm_compute in H. discriminate.
  - vm_compute. reflexivity.
  - intros (req & Hp & Hm). vm_compute in Hp. inversion Hp; subst req; clear Hp.
    vm_compute in Hm. discriminate.
  - vm_compute. reflexivity.
Qed.

End RequestLine.

(** ** The response *)

Section StatusMessage.

Lemma default_table_lookup (code : Z) :
  from_option id EmptyString (default_status_messages !! code) = default_status_text code.
Proof.
  unfold default_status_messages, default_status_text.
  destruct (Z.eqb_spec code 200) as [-> | H200]; [reflexivity |].
  rewrite lookup_insert_ne by congruence.
  destruct (Z.eqb_spec code 400) as [-> | H400]; [reflexivity |].
  rewrite lookup_insert_ne by congruence.
  destruct (Z.eqb_spec code 404) as [-> | H404]; [reflexivity |].
  rewrite lookup_insert_ne by congruence.
  now rewrite lookup_empty.
Qed.

(** A lookup with [operator[]] returns the table's text and leaves a table
    that answers every code as before. *)
Lemma status_index_spec (table : gmap Z string) (code : Z) :
  (∀ c, from_option id EmptyString (table !! c) = default_status_text c) →
  fst (status_index code table) = default_status_text code
  ∧ (∀ c, from_option id EmptyString (snd (status_index code table) !! c)
          = default_status_text c).
Proof.
  intros Hinv. unfold status_index.
  pose proof (Hinv code) as Hc.
  destruct (table !! code) as [v |] eqn:E; simpl in *.
  - split; [exact Hc | exact Hinv].
  - split; [exact Hc |]. intros c.
    destruct (decide (code = c)) as [-> | Hne].
    + rewrite lookup_insert_eq. simpl. exact Hc.
    + rewrite lookup_insert_ne by exact Hne. apply Hinv.
Qed.

Lemma table_after_lookup (codes : list Z) :
  ∀ c, from_option id EmptyString (table_after codes !! c) = default_status_text c.
Proof.
  unfold table_after.
  generalize default_table_lookup. generalize default_status_messages.
  induction codes as [|code codes IH]; intros table Hinv; [exact Hinv |].
  simpl. apply IH. now apply status_index_spec.
Qed.

Lemma write_headers_lines (order : list (string * string)) :
  ∀ oss, Incremental.write_headers oss order = oss +:+ header_lines order.
Proof.
  induction order as [|[header value] order IH]; intros oss; simpl.
  - now rewrite append_nil_r.
  - rewrite IH. now rewrite !append_assoc.
Qed.

Lemma one_pass_write_headers_lines (order : list (string * string)) :
  ∀ oss, OnePass.write_headers oss order = oss +:+ header_lines order.
Proof.
  induction order as [|[header value] order IH]; intros oss; simpl.
  - now rewrite append_nil_r.
  - rewrite IH. now rewrite !append_assoc.
Qed.

(** The text of [send] in the incremental variant, in closed form. *)
Lemma render_closed_form (res : Incremental.response) (order : list (string * string))
    (table : gmap Z string) (body : string) :
  fst (Incremental.render res order table body)
  = status_line (Incremental.protocol_ (Incremental.request_ res))
                (Incremental.http_version_ (Incremental.request_ res))
                (Incremental.status_ res)
                (fst (select_message (Incremental.status_message_ res)
                                     (Incremental.status_ res) table))
    +:+ header_lines order
    +:+ (if String.eqb body EmptyString then EmptyString
         else "Content-Length: " +:+ show_size (String.length body) +:+ newline
              +:+ "Content-Type: text/html" +:+ newline)
    +:+ "Connection: Keep-Alive" +:+ newline +:+ newline +:+ body.
Proof.
  unfold Incremental.render, status_line.
  destruct (select_message _ _ _) as [message table']. simpl fst.
  rewrite write_headers_lines.
  destruct (String.eqb_spec body EmptyString) as [-> | Hne]; simpl negb; cbv iota.
  - rewrite append_nil_l, !append_assoc. rewrite append_nil_r. reflexivity.
  - rewrite append_nil_l, !append_assoc. reflexivity.
Qed.

(** The text of [send] in the one-pass variant, in closed form. *)
Lemma one_pass_render_closed_form (res : OnePass.response)
    (order : list (string * string)) (table : gmap Z string) (body : string) :
  fst (OnePass.render res order table body)
  = status_line (OnePass.protocol_ (OnePass.request_ res))
                (OnePass.http_version_ (OnePass.request_ res))
                (OnePass.status_ res)
                (fst (select_message (OnePass.status_message_ res)
                                     (OnePass.status_ res) table))
    +:+ header_lines order
    +:+ "Content-Length: " +:+ show_size (String.length body) +:+ newline
    +:+ "Content-Type: text/html" +:+ newline
    +:+ "Connection: Keep-Alive" +:+ newline +:+ newline +:+ body.
Proof.
  unfold OnePass.render, status_line.
  destruct (select_message _ _ _) as [message table']. simpl fst.
  rewrite one_pass_write_headers_lines.
  rewrite append_nil_l, !append_assoc. reflexivity.
Qed.

Lemma select_message_text (status_message : string) (code : Z) (codes : list Z) :
  fst (select_message status_message code (table_after codes))
  = message_text status_message code.
Proof.
  unfold select_message, message_text.
  destruct (String.eqb status_message EmptyString); simpl; [| reflexivity].
  apply status_index_spec, table_after_lookup.
Qed.

(** C6: the message of the status line. Without an override it is the text
    of the static table, [OK] for 200, [Bad Request] for 400, [Not Found]
    for 404 and the empty string for every other code, also after earlier
    lookups have added codes to the table; with an override (a non-empty
    text) it is that text. Both variants start their output with the status
    line built from it. *)
Theorem status_message_default_or_override :
  (∀ (text : string) (code : Z) (codes : list Z),
      text ≠ EmptyString →
      fst (select_message text code (table_after codes)) = text)
  ∧ (∀ (code : Z) (codes : list Z),
      fst (select_message EmptyString code (table_after codes))
      = if code =? 200 then "OK"
        else if code =? 400 then "Bad Request"
        else if code =? 404 then "Not Found"
        else EmptyString)
  ∧ (∀ (res : Incremental.response) (order : list (string * string))
       (codes : list Z) (body : string),
      ∃ tail : string,
        fst (Incremental.render res order (table_after codes) body)
        = status_line (Incremental.protocol_ (Incremental.request_ res))
                      (Incremental.http_version_ (Incremental.request_ res))
                      (Incremental.status_ res)
                      (message_text (Incremental.status_message_ res)
                                    (Incremental.status_ res))
          +:+ tail)
  ∧ (∀ (res : OnePass.response) (order : list (string * string))
       (codes : list Z) (body : string),
      ∃ tail : string,
        fst (OnePass.render res order (table_after codes) body)
        = status_line (OnePass.protocol_ (OnePass.request_ res))
                      (OnePass.http_version_ (OnePass.request_ res))
                      (OnePass.status_ res)
                      (message_text (OnePass.status_message_ res) (OnePass.status_ res))
          +:+ tail).
Proof.
  split; [| split; [| split]].
  - intros text code codes Hne. rewrite select_message_text.
    unfold message_text. now apply String.eqb_neq in Hne as ->.
  - intros code codes. now rewrite select_message_text.
  - intros res order codes body. eexists.
    rewrite render_closed_form, select_message_text. reflexivity.
  - intros res order codes body. eexists.
    rewrite one_pass_render_closed_form, select_message_text. reflexivity.
Qed.

Lemma status_message_default_or_override_witness :
  fst (select_message "I'm a teapot" 418 (table_after [418; 200])) = "I'm a teapot"
  ∧ fst (select_message EmptyString 404 (table_after [500]))
    = (if 404 =? 200 then "OK"
       else if 404 =? 400 then "Bad Request"
       else if 404 =? 404 then "Not Found"
       else EmptyString).
Proof.
  split.
  - apply (proj1 status_message_default_or_override). discriminate.
  - apply (proj1 (proj2 status_message_default_or_override)).
Defined.

(** The example of the specification: status 404 and no message set. *)
Lemma status_line_404 :
  fst (Incremental.render
         (Incremental.status (Incremental.response_new (request_at parse_state.done)) 404)
         [] default_status_messages EmptyString)
  = "HTTP/1.1 404 Not Found" +:+ newline +:+ "Connection: Keep-Alive" +:+ delimiter.
Proof. vm_compute. reflexivity. Qed.

End StatusMessage.

Section ContentLength.

Lemma header_lines_end (order : list (string * string)) (first : string) :
  ∃ pre : string, (first +:+ newline) +:+ header_lines order = pre +:+ newline.
Proof.
  revert first. induction order as [|[header value] order IH]; intros first.
  - exists first. now rewrite append_nil_r.
  - simpl header_lines.
    destruct (IH ((first +:+ newline) +:+ header +:+ ": " +:+ value)) as [pre Hpre].
    exists pre. rewrite <- Hpre. now rewrite !append_assoc.
Qed.

(** The status line and the header lines end with a CRLF. *)
Lemma head_ends_with_newline (protocol version : string) (code : Z) (message : string)
    (order : list (string * string)) :
  ∃ pre : string,
    status_line protocol version code message +:+ header_lines order = pre +:+ newline.
Proof.
  unfold status_line.
  destruct (header_lines_end order
              (protocol +:+ "/" +:+ version +:+ " " +:+ show_int code +:+ " " +:+ message))
    as [pre Hpre].
  exists pre. rewrite <- Hpre. now rewrite !append_assoc.
Qed.

Lemma has_line_intro (wire pre line post : string) :
  wire = (pre +:+ newline) +:+ line +:+ newline +:+ post → has_line wire line.
Proof. intros ->. exists pre, post. now rewrite !append_assoc. Qed.

Lemma show_size_inj (n m : nat) : show_size n = show_size m → n = m.
Proof. unfold show_size. apply pretty_nat_inj. Qed.

(** C5, as the two variants have it. In the incremental variant [send]
    writes, after the status line and the response's own headers, a
    [Content-Length] line with the decimal length of the body exactly when
    the body is not empty (the digits determine the length); for an empty
    body only the [Connection] line and the blank line follow. In the
    one-pass variant the [Content-Length] line is written for every body. *)
Theorem content_length_header :
  (∀ (res : Incremental.response) (order : list (string * string))
     (table : gmap Z string) (body : string),
      body ≠ EmptyString →
      has_line (fst (Incremental.render res order table body))
               ("Content-Length: " +:+ show_size (String.length body))
      ∧ fst (Incremental.render res order table body)
        = status_line (Incremental.protocol_ (Incremental.request_ res))
                      (Incremental.http_version_ (Incremental.request_ res))
                      (Incremental.status_ res)
                      (fst (select_message (Incremental.status_message_ res)
                                           (Incremental.status_ res) table))
          +:+ header_lines order
          +:+ "Content-Length: " +:+ show_size (String.length body) +:+ newline
          +:+ "Content-Type: text/html" +:+ newline
          +:+ "Connection: Keep-Alive" +:+ newline +:+ newline +:+ body)
  ∧ (∀ (res : Incremental.response) (order : list (string * string))
       (table : gmap Z string),
      fst (Incremental.render res order table EmptyString)
      = status_line (Incremental.protocol_ (Incremental.request_ res))
                    (Incremental.http_version_ (Incremental.request_ res))
                    (Incremental.status_ res)
                    (fst (select_message (Incremental.status_message_ res)
                                         (Incremental.status_ res) table))
        +:+ header_lines order
        +:+ "Connection: Keep-Alive" +:+ newline +:+ newline)
  ∧ (∀ n m : nat, show_size n = show_size m → n = m)
  ∧ (∀ (res : OnePass.response) (order : list (string * string))
       (table : gmap Z string) (body : string),
      has_line (fst (OnePass.render res order table body))
               ("Content-Length: " +:+ show_size (String.length body))).
Proof.
  split; [| split; [| split]].
  - intros res order table body Hne.
    rewrite render_closed_form.
    apply String.eqb_neq in Hne. rewrite Hne. split.
    + destruct (head_ends_with_newline
                  (Incremental.protocol_ (Incremental.request_ res))
                  (Incremental.http_version_ (Incremental.request_ res))
                  (Incremental.status_ res)
                  (fst (select_message (Incremental.status_message_ res)
                                       (Incremental.status_ res) table))
                  order) as [pre Hpre].
      apply (has_line_intro _ pre _
               ("Content-Type: text/html" +:+ newline +:+ "Connection: Keep-Alive"
                  +:+ newline +:+ newline +:+ body)).
      rewrite <- Hpre. now rewrite !append_assoc.
    + now rewrite !append_assoc.
  - intros res order table. rewrite render_closed_form.
    simpl String.eqb. cbv iota. now rewrite append_nil_l, !append_nil_r.
  - exact show_size_inj.
  - intros res order table body. rewrite one_pass_render_closed_form.
    destruct (head_ends_with_newline
                (OnePass.protocol_ (OnePass.request_ res))
                (OnePass.http_version_ (OnePass.request_ res))
                (OnePass.status_ res)
                (fst (select_message (OnePass.status_message_ res)
                                     (OnePass.status_ res) table))
                order) as [pre Hpre].
    apply (has_line_intro _ pre _
               ("Content-Type: text/html" +:+ newline +:+ "Connection: Keep-Alive"
                  +:+ newline +:+ newline +:+ body)).
      rewrite <- Hpre. now rewrite !append_assoc.
Qed.

Lemma content_length_header_witness :
  has_line (fst (Incremental.render
                   (Incremental.response_new (request_at parse_state.done)) []
                   default_status_messages "hello"))
           ("Content-Length: " +:+ show_size (String.length "hello"))
  ∧ show_size (String.length "hello") = "5".
Proof.
  split; [| reflexivity].
  apply (proj1 content_length_header). discriminate.
Defined.

(** Counterexample to C5 as stated: the one-pass variant sends a
    [Content-Length] line with an empty body too. *)
Lemma one_pass_content_length_for_empty_body :
  fst (OnePass.render (OnePass.response_new one_pass_request) []
         default_status_messages EmptyString)
  = "http/1.1 200 OK" +:+ newline +:+ "Content-Length: 0" +:+ newline
      +:+ "Content-Type: text/html" +:+ newline
      +:+ "Connection: Keep-Alive" +:+ newline +:+ newline
  ∧ has_line (fst (OnePass.render (OnePass.response_new one_pass_request) []
                     default_status_messages EmptyString))
             "Content-Length: 0".
Proof.
  split; [vm_compute; reflexivity |].
  exists "http/1.1 200 OK",
         ("Content-Type: text/html" +:+ newline +:+ "Connection: Keep-Alive"
            +:+ newline +:+ newline).
  vm_compute. reflexivity.
Qed.

End ContentLength.

Section ResponseHeaders.

(** The name [set_header] and [get_header] hand to the map is empty for
    every header: [reserve] leaves the size of [lower_header] at zero and
    [std::transform] writes behind it. *)
Lemma lower_header_empty (header : string) : Incremental.lower_header header = EmptyString.
Proof. reflexivity. Qed.

(** C7 at a failing input, incremental variant: after
    [set_header("Content-Type", "text/plain")] and [set_header("X-Id", "7")]
    the map holds the single entry with the empty name and the first value,
    nothing is stored under [content-type], and [get_header("x-id")] answers
    [text/plain]; the line sent is [: text/plain]. In the one-pass variant
    the name is stored as given and [get_header("content-type")] throws. *)
Theorem set_header_loses_the_name :
  Incremental.res_headers_ two_headers_response = {[ EmptyString := "text/plain" ]}
  ∧ Incremental.res_headers_ two_headers_response !! "content-type" = None
  ∧ Incremental.get_header two_headers_response "x-id" = Ok "text/plain"
  ∧ fst (Incremental.render two_headers_response [(EmptyString, "text/plain")]
           default_status_messages EmptyString)
    = "HTTP/1.1 200 OK" +:+ newline +:+ ": text/plain" +:+ newline
        +:+ "Connection: Keep-Alive" +:+ newline +:+ newline
  ∧ OnePass.get_header
      (OnePass.set_header (OnePass.response_new one_pass_request)
                          "Content-Type" "text/plain")
      "content-type" = Throw out_of_range
  ∧ OnePass.get_header
      (OnePass.set_header (OnePass.response_new one_pass_request)
                          "Content-Type" "text/plain")
      "Content-Type" = Ok "text/plain".
Proof. vm_compute. repeat split; reflexivity. Qed.

End ResponseHeaders.

Section SocketGuards.

(** The guards the socket operations do have. *)
Lemma socket_guards (EAGAIN : Z) :
  (∀ (s : Incremental.socket) (os_recv errno : Z),
      Incremental.accepted_sock_ s = 0 →
      Incremental.recv EAGAIN s os_recv errno
      = Throw (logic_error "socket is not accepted"))
  ∧ (∀ (s : Incremental.socket) (os_listen : Z),
      Incremental.sock_ s = 0 →
      snd (Incremental.listen s os_listen) = Throw (logic_error "socket is not created"))
  ∧ (∀ (s : Incremental.socket) (answers : list (Z * Z)),
      Incremental.sock_ s = 0 →
      snd (Incremental.accept EAGAIN s answers)
      = Raised (logic_error "socket is not created"))
  ∧ (∀ (s : OnePass.socket) (answers : list (string * Z)),
      OnePass.accepted_sock_ s = 0 →
      OnePass.recv s answers = Raised (logic_error "socket is not accepted"))
  ∧ (∀ (s : OnePass.socket) (os_listen : Z),
      OnePass.sock_ s = 0 →
      snd (OnePass.listen s os_listen) = Throw (logic_error "socket is not created"))
  ∧ (∀ (s : OnePass.socket) (os_accept : Z),
      OnePass.sock_ s = 0 →
      snd (OnePass.accept s os_accept) = Throw (logic_error "socket is not created")).
Proof.
  repeat split; intros s ? ? H || intros s ? H;
    unfold Incremental.recv, Incremental.listen, Incremental.accept,
           OnePass.recv, OnePass.listen, OnePass.accept;
    rewrite H; reflexivity.
Qed.

(** C8 at a failing input: [send] on a socket that never accepted a peer
    (and was never created) has no guard. It hands the bytes to [::send] on
    descriptor 0 and returns normally or throws a [system_error] as the
    system call decides; it never throws a [logic_error]. Both variants. *)
Theorem send_before_accept_has_no_guard :
  (∀ (buf : string) (os_send : Z),
      Incremental.send Incremental.socket_default buf os_send
      = if os_send <? 0 then Throw (system_error "") else Ok tt)
  ∧ (∀ (buf : string) (os_send : Z) (what : string),
      Incremental.send Incremental.socket_default buf os_send ≠ Throw (logic_error what))
  ∧ (∀ (buf : string) (os_send : Z) (what : string),
      OnePass.send OnePass.socket_default buf os_send ≠ Throw (logic_error what))
  ∧ Incremental.send Incremental.socket_default "HTTP/1.1 200 OK" 15 = Ok tt.
Proof.
  repeat split.
  - intros buf os_send what. unfold Incremental.send.
    destruct (os_send <? 0); discriminate.
  - intros buf os_send what. unfold OnePass.send.
    destruct (os_send <? 0); discriminate.
Qed.

End SocketGuards.

(** ** The host name *)

Section Hostname.

Lemma parse_state_eqb_eq (a b : parse_state.t) : parse_state.eqb a b = true ↔ a = b.
Proof. split; [destruct a, b; (reflexivity || discriminate) | intros ->; now destruct b]. Qed.

(** The incremental accept loop: a request read to [done] gets the fixed
    host name, whatever its headers say. *)
Lemma read_request_hostname (EAGAIN : Z) (sock : Incremental.socket)
    (answers : list (string * Z * Z)) :
  ∀ req req' : Incremental.request,
    Incremental.state_ req ≠ parse_state.done →
    Incremental.read_request EAGAIN sock req answers = Finished req' →
    Incremental.state_ req' = parse_state.done →
    Incremental.hostname_ req' = "localhost".
Proof.
  induction answers as [|[[buffer os_recv] errno] answers IH]; intros req req' Hst Hr Hd.
  - discriminate.
  - simpl in Hr.
    destruct (Incremental.recv EAGAIN sock os_recv errno) as [n | e |]; try discriminate.
    destruct (n =? 0).
    { injection Hr as <-. contradiction. }
    destruct (n <? 0).
    { now apply (IH req req'). }
    destruct (parse_state.eqb _ _) eqn:E.
    + injection Hr as <-. reflexivity.
    + apply (IH (Incremental.parse_and_build req buffer n) req'); try assumption.
      intros Hdone. apply parse_state_eqb_eq in Hdone. congruence.
Qed.

(** C9 at a failing input, incremental variant: the request
    [GET / HTTP/1.1 CRLF Host: example.com:8080 CRLF CRLF] is read to [done]
    with the header [host: example.com:8080], and its host name is
    [localhost], not [example.com]. *)
Theorem incremental_hostname_is_fixed (EAGAIN : Z) :
  ∃ req : Incremental.request,
    Incremental.read_request EAGAIN (Incremental.mk_socket 3 4 3000)
      Incremental.request_default
      [(host_port_request, Z.of_nat (String.length host_port_request), 0)]
    = Finished req
    ∧ Incremental.state_ req = parse_state.done
    ∧ Incremental.headers_ req !! "host" = Some "example.com:8080"
    ∧ Incremental.hostname_ req = "localhost".
Proof.
  eexists. split; [vm_compute; reflexivity |].
  vm_compute. repeat split; reflexivity.
Qed.

Lemma bytes_upto_find_char (c : ascii) (s : string) :
  no_char c (bytes_upto (OnePass.find_char c s) s) = true
  ∧ (s = bytes_upto (OnePass.find_char c s) s
     ∨ ∃ rest : string, s = bytes_upto (OnePass.find_char c s) s +:+ String c rest).
Proof.
  induction s as [|d s [IH1 IH2]]; simpl.
  - split; [reflexivity | now left].
  - destruct (Ascii.eqb_spec d c) as [-> | Hne]; simpl.
    + split; [reflexivity |]. right. now exists s.
    + split.
      * unfold no_char in *. simpl. rewrite IH1.
        now rewrite (ascii_eqb_false _ _ Hne).
      * destruct IH2 as [IH2 | [rest IH2]].
        -- left. now rewrite <- IH2.
        -- right. exists rest. rewrite append_cons. now rewrite <- IH2.
Qed.

(** In the one-pass parser the host name is the value stored under [Host]
    up to its first colon. *)
Lemma one_pass_hostname (raw : string) (req : OnePass.request) (host : string) :
  OnePass.parse raw = Some (Ok req) →
  OnePass.headers_ req !! "Host" = Some host →
  no_char ":" (OnePass.hostname_ req) = true
  ∧ (host = OnePass.hostname_ req
     ∨ ∃ port : string, host = OnePass.hostname_ req +:+ String ":"%char port).
Proof.
  unfold OnePass.parse.
  destruct (String.eqb raw "").
  { intros [= <-]. simpl. now rewrite lookup_empty. }
  cbv zeta.
  destruct (_ =? _)%nat; [discriminate |].
  destruct (_ <? _)%nat; [discriminate |].
  destruct (_ <? _)%nat; [discriminate |].
  destruct (_ <? _)%nat; [discriminate |].
  destruct (OnePass.parse_headers _ _ _ _ _) as [[h | e |] |]; try discriminate.
  unfold umap_index.
  destruct (h !! "Host") as [v |] eqn:E.
  - intros [= <-]. simpl. rewrite E. intros [= <-].
    unfold OnePass.find, OnePass.range. simpl.
    rewrite !Nat.sub_0_r, bytes_upto_length.
    apply bytes_upto_find_char.
  - intros [= <-]. simpl. rewrite lookup_insert_eq. intros [= <-].
    split; [reflexivity | now left].
Qed.

End Hostname.

(** * Further properties of the code *)

(** ** The incremental parser on whole requests *)

Section WholeRequest.
Import Incremental.

Lemma consume_method (m : string) :
  ∀ (r : request) (hb : header_buffer),
    state_ r = parse_state.method → no_char SP m = true →
    consume (r, hb) m = (set_method r (method_ r +:+ m), hb).
Proof.
  induction m as [|c m IH]; intros r hb Hst Hn.
  - simpl. rewrite append_nil_r. now destruct r.
  - apply no_char_cons in Hn as [Hc Hn].
    rewrite consume_cons. unfold step at 1. rewrite Hst, (ascii_eqb_false _ _ Hc).
    rewrite IH by assumption. simpl. unfold push_back, set_method. simpl.
    now rewrite append_assoc.
Qed.

Lemma consume_path (p : string) :
  ∀ (r : request) (hb : header_buffer),
    state_ r = parse_state.path → no_char SP p = true → no_char "?" p = true →
    consume (r, hb) p = (set_path r (path_ r +:+ p), hb).
Proof.
  induction p as [|c p IH]; intros r hb Hst Hn Hq.
  - simpl. rewrite append_nil_r. now destruct r.
  - apply no_char_cons in Hn as [Hc Hn]. apply no_char_cons in Hq as [Hc' Hq].
    rewrite consume_cons. unfold step at 1.
    rewrite Hst, (ascii_eqb_false _ _ Hc), (ascii_eqb_false _ _ Hc').
    rewrite IH by assumption. simpl. unfold push_back, set_path. simpl.
    now rewrite append_assoc.
Qed.

Lemma consume_query (q : string) :
  ∀ (r : request) (hb : header_buffer),
    state_ r = parse_state.query → no_char SP q = true →
    consume (r, hb) q = (r, hb).
Proof.
  induction q as [|c q IH]; intros r hb Hst Hn; [reflexivity |].
  apply no_char_cons in Hn as [Hc Hn].
  rewrite consume_cons. unfold step at 1. rewrite Hst, (ascii_eqb_false _ _ Hc).
  now apply IH.
Qed.

Lemma consume_protocol (proto : string) :
  ∀ (r : request) (hb : header_buffer),
    state_ r = parse_state.protocol → no_char "/" proto = true →
    consume (r, hb) proto = (set_protocol r (protocol_ r +:+ proto), hb).
Proof.
  induction proto as [|c proto IH]; intros r hb Hst Hn.
  - simpl. rewrite append_nil_r. now destruct r.
  - apply no_char_cons in Hn as [Hc Hn].
    rewrite consume_cons. unfold step at 1. rewrite Hst, (ascii_eqb_false _ _ Hc).
    rewrite IH by assumption. simpl. unfold push_back, set_protocol. simpl.
    now rewrite append_assoc.
Qed.

Lemma consume_http_version (ver : string) :
  ∀ (r : request) (hb : header_buffer),
    state_ r = parse_state.http_version → no_char CR ver = true →
    consume (r, hb) ver = (set_http_version r (http_version_ r +:+ ver), hb).
Proof.
  induction ver as [|c ver IH]; intros r hb Hst Hn.
  - simpl. rewrite append_nil_r. now destruct r.
  - apply no_char_cons in Hn as [Hc Hn].
    rewrite consume_cons. unfold step at 1. rewrite Hst, (ascii_eqb_false _ _ Hc).
    rewrite IH by assumption. simpl. unfold push_back, set_http_version. simpl.
    now rewrite append_assoc.
Qed.

Lemma consume_target (p : string) (q : option string) (r : request) (hb : header_buffer) :
  state_ r = parse_state.path → no_char SP p = true → no_char "?" p = true →
  (∀ q', q = Some q' → no_char SP q' = true) →
  consume (r, hb) (request_target p q +:+ String SP "")
  = (set_original_url (set_state (set_path r (path_ r +:+ p)) parse_state.protocol)
                      (path_ r +:+ p), hb).
Proof.
  intros Hst Hn Hq Hquery. destruct q as [q' |]; unfold request_target.
  - rewrite append_assoc, consume_app, consume_path by assumption.
    rewrite append_cons, consume_cons. unfold step at 1. simpl. rewrite Hst. simpl.
    rewrite consume_app, consume_query by (reflexivity || now apply Hquery).
    rewrite consume_cons. unfold step at 1. simpl. reflexivity.
  - rewrite consume_app, consume_path by assumption.
    rewrite consume_cons. unfold step at 1. simpl. rewrite Hst. simpl. reflexivity.
Qed.

(** The request line read from a request in the state [method], whatever
    the fields already hold. *)
Lemma consume_request_line (r : request) (hb : header_buffer) (m p : string)
    (q : option string) (proto ver : string) :
  state_ r = parse_state.method →
  no_char SP m = true → no_char SP p = true → no_char "?" p = true →
  (∀ q', q = Some q' → no_char SP q' = true) →
  no_char "/" proto = true → no_char CR ver = true →
  consume (r, hb) (request_line_text m p q proto ver)
  = (mk_request (headers_ r) (method_ r +:+ m) (path_ r +:+ p) (path_ r +:+ p)
                (protocol_ r +:+ proto) (hostname_ r) (body_ r)
                (http_version_ r +:+ ver) parse_state.crlf,
     hb).
Proof.
  intros Hst Hm Hp Hp' Hq Hproto Hver. unfold request_line_text.
  rewrite consume_app, consume_method by assumption.
  rewrite consume_cons. unfold step at 1. simpl. rewrite Hst. simpl.
  change (request_target p q +:+ String SP (proto +:+ String "/"%char (ver +:+ newline)))
    with (request_target p q +:+ (String SP "" +:+ (proto +:+ String "/"%char (ver +:+ newline)))).
  rewrite <- append_assoc, consume_app.
  rewrite consume_target by (assumption || reflexivity).
  rewrite consume_app, consume_protocol by (assumption || reflexivity).
  rewrite consume_cons. unfold step at 1. simpl.
  rewrite consume_app, consume_http_version by (assumption || reflexivity).
  reflexivity.
Qed.

Lemma consume_header_line_crlf (r : request) (l : header_line) :
  state_ r = parse_state.crlf → header_line_ok l →
  consume (r, header_buffer_empty) (header_line_text l +:+ newline)
  = (set_headers r (umap_insert (transform_tolower (String (hl_first l) (hl_name l)))
                                (hl_value l) (headers_ r)),
     header_buffer_empty).
Proof.
  intros Hst (H1 & H2 & H3 & H4). unfold header_line_text.
  change newline with (String CR "" +:+ String LF "").
  rewrite <- append_assoc, consume_app.
  rewrite consume_header_line by assumption.
  rewrite consume_cons. unfold step at 1. simpl.
  destruct r; simpl in *; subst; reflexivity.
Qed.

Lemma consume_header_block (ls : list header_line) :
  ∀ r : request,
    state_ r = parse_state.crlf → Forall header_line_ok ls →
    consume (r, header_buffer_empty) (header_block ls)
    = (set_state (set_headers r (store_lines ls (headers_ r))) parse_state.done,
       header_buffer_empty).
Proof.
  induction ls as [|l ls IH]; intros r Hst Hok.
  - simpl header_block. unfold newline. rewrite !consume_cons.
    unfold step at 2. rewrite Hst. simpl. unfold step. simpl.
    destruct r; reflexivity.
  - inversion Hok as [|? ? Hl Hls]; subst.
    simpl header_block. rewrite consume_app, consume_header_line_crlf by assumption.
    rewrite IH by assumption. reflexivity.
Qed.

(** X1: a whole well-formed request read in one call, from a fresh request:
    a request line [method SP path[?query] SP protocol/version CRLF], any
    number of header lines and the blank line. The parser ends in [done]
    with the method, path, protocol and version of the line, the target
    without its query, and the headers inserted in order under their
    lower-cased names. *)
Theorem feed_whole_request (m p : string) (q : option string) (proto ver : string)
    (ls : list header_line) :
  no_char SP m = true → no_char SP p = true → no_char "?" p = true →
  (∀ q', q = Some q' → no_char SP q' = true) →
  no_char "/" proto = true → no_char CR ver = true →
  Forall header_line_ok ls →
  feed request_default (request_line_text m p q proto ver +:+ header_block ls)
  = mk_request (store_lines ls ∅) m p p proto "" "" ver parse_state.done.
Proof.
  intros Hm Hp Hp' Hq Hproto Hver Hls.
  rewrite feed_consume, consume_app.
  rewrite consume_request_line by (assumption || reflexivity).
  rewrite consume_header_block by (assumption || reflexivity).
  reflexivity.
Qed.

Lemma feed_whole_request_witness :
  feed request_default
       (request_line_text "GET" "/foo" (Some "x=1") "HTTP" "1.1"
          +:+ header_block [mk_header_line "H" "ost" 1 "a"; mk_header_line "h" "OST" 0 "b"])
  = mk_request (store_lines [mk_header_line "H" "ost" 1 "a"; mk_header_line "h" "OST" 0 "b"] ∅)
               "GET" "/foo" "/foo" "HTTP" "" "" "1.1" parse_state.done
  ∧ store_lines [mk_header_line "H" "ost" 1 "a"; mk_header_line "h" "OST" 0 "b"] ∅
    = {[ "host" := "a" ]}.
Proof.
  split.
  - apply feed_whole_request; try reflexivity.
    + intros q' [= <-]. reflexivity.
    + repeat constructor; discriminate.
  - vm_compute. reflexivity.
Defined.

End WholeRequest.

(** ** What the incremental parser keeps true *)
Section ParserInvariant.
Import Incremental.

Lemma all_chars_push_back (p : ascii → bool) (s : string) (c : ascii) :
  all_chars p (push_back s c) = (all_chars p s && p c)%bool.
Proof.
  unfold push_back. induction s as [|d s IH].
  - simpl. now rewrite andb_true_r.
  - rewrite append_cons. simpl. rewrite IH. now rewrite andb_assoc.
Qed.

Lemma lowercase_push_back (s : string) (c : ascii) :
  lowercase s = true → lowercase (push_back s (tolower c)) = true.
Proof.
  unfold lowercase. intros H. rewrite all_chars_push_back, H, tolower_not_upper.
  reflexivity.
Qed.

Lemma starts_with_push_back (v : string) (c : ascii) :
  starts_with SP v = false →
  (Ascii.eqb c SP && String.eqb v EmptyString)%bool = false →
  starts_with SP (push_back v c) = false.
Proof.
  intros Hv Hc. destruct v as [|d v]; [| exact Hv].
  simpl in *. now rewrite andb_true_r in Hc.
Qed.

Lemma headers_normal_insert (k v : string) (h : gmap string string) :
  headers_normal h → lowercase k = true → starts_with SP v = false →
  headers_normal (umap_insert k v h).
Proof.
  intros Hh Hk Hv k' v' Hl. unfold umap_insert in Hl.
  destruct (h !! k) eqn:E; [now apply Hh |].
  destruct (decide (k = k')) as [<- | Hne].
  - rewrite lookup_insert_eq in Hl. injection Hl as <-. now split.
  - rewrite lookup_insert_ne in Hl by exact Hne. now apply Hh.
Qed.

Lemma step_invariant (st : request * header_buffer) (c : ascii) :
  parser_invariant st → parser_invariant (step st c).
Proof.
  destruct st as [r [k v]]. unfold parser_invariant. simpl.
  intros (Hb & Hh & Hk & Hv & He). unfold step.
  destruct (state_ r) eqn:Hst; simpl;
    repeat match goal with
           | |- context [if ?b then _ else _] => destruct b eqn:?; simpl
           end;
    rewrite ?Hst;
    repeat match goal with
           | |- _ ∧ _ => split
           end;
    try assumption; try discriminate; try reflexivity;
    try (now apply lowercase_push_back);
    try (now apply starts_with_push_back);
    try (now apply headers_normal_insert);
    try (now left); try (now right; left); try (now right; right);
    try (destruct He as [He | [He | He]]; (discriminate || (now left)));
    try contradiction.
Qed.

Lemma consume_invariant (bytes : string) :
  ∀ st, parser_invariant st → parser_invariant (consume st bytes).
Proof.
  induction bytes as [|c bytes IH]; intros st H; [exact H |].
  rewrite consume_cons. apply IH. now apply step_invariant.
Qed.

Lemma calls_invariant (bufs : list (string * Z)) :
  ∀ r : request,
    state_ r ≠ parse_state.body → headers_normal (headers_ r) →
    state_ (calls r bufs) ≠ parse_state.body ∧ headers_normal (headers_ (calls r bufs)).
Proof.
  induction bufs as [|b bufs IH]; intros r Hb Hh; [now split |].
  change (calls r (b :: bufs)) with (calls (parse_and_build r (fst b) (snd b)) bufs).
  unfold parse_and_build.
  assert (Hinv : parser_invariant (r, header_buffer_empty)).
  { exact (conj Hb (conj Hh (conj eq_refl (conj eq_refl (or_introl eq_refl))))). }
  apply (consume_invariant (bytes_upto (Z.to_nat (snd b)) (fst b))) in Hinv.
  destruct Hinv as (H1 & H2 & _). now apply IH.
Qed.

(** X2: whatever buffers a fresh request is fed, in whatever chunks, every
    header it stores has a name without upper-case letters and a value that
    does not begin with a space. *)
Theorem stored_headers_normalised (bufs : list (string * Z)) (k v : string) :
  headers_ (calls request_default bufs) !! k = Some v →
  lowercase k = true ∧ starts_with SP v = false.
Proof.
  intros H.
  destruct (calls_invariant bufs request_default) as [_ Hh].
  - discriminate.
  - intros k' v' Hl. simpl in Hl. now rewrite lookup_empty in Hl.
  - now apply Hh.
Qed.

Lemma stored_headers_normalised_witness :
  lowercase "nt-type" = true ∧ starts_with SP "text/html" = false.
Proof.
  apply (stored_headers_normalised
           [("GET / HTTP/1.1" +:+ newline +:+ "Conte", 21);
            ("nt-Type:   text/html" +:+ delimiter, 24)]).
  vm_compute. reflexivity.
Defined.

Lemma step_body_untouched (r : request) (hb : header_buffer) (c : ascii) :
  state_ r ≠ parse_state.body →
  body_ (fst (step (r, hb) c)) = body_ r ∧ hostname_ (fst (step (r, hb) c)) = hostname_ r.
Proof.
  intros Hb. unfold step.
  destruct (state_ r) eqn:Hst; simpl;
    repeat match goal with
           | |- context [if ?b then _ else _] => destruct b; simpl
           end;
    try (split; reflexivity).
  contradiction.
Qed.

Lemma consume_body_untouched (bytes : string) :
  ∀ (r : request) (hb : header_buffer),
    parser_invariant (r, hb) →
    body_ (fst (consume (r, hb) bytes)) = body_ r
    ∧ hostname_ (fst (consume (r, hb) bytes)) = hostname_ r.
Proof.
  induction bytes as [|c bytes IH]; intros r hb Hinv; [now split |].
  rewrite consume_cons.
  pose proof (step_invariant (r, hb) c Hinv) as Hs.
  destruct (step_body_untouched r hb c (proj1 Hinv)) as [Hb Hn].
  destruct (step (r, hb) c) as [r1 hb1]. simpl in Hb, Hn.
  destruct (IH r1 hb1 Hs) as [Hb' Hn']. split; congruence.
Qed.

(** X3: whatever a fresh request is fed, the parser never enters the state
    [body], never stores a body byte and never sets the host name. *)
Theorem parser_never_reads_body (bufs : list (string * Z)) :
  state_ (calls request_default bufs) ≠ parse_state.body
  ∧ body_ (calls request_default bufs) = EmptyString
  ∧ hostname_ (calls request_default bufs) = EmptyString.
Proof.
  assert (G : ∀ r : request,
             state_ r ≠ parse_state.body → headers_normal (headers_ r) →
             state_ (calls r bufs) ≠ parse_state.body
             ∧ body_ (calls r bufs) = body_ r ∧ hostname_ (calls r bufs) = hostname_ r).
  { induction bufs as [|b bufs IH]; intros r Hb Hh; [now repeat split |].
    change (calls r (b :: bufs)) with (calls (parse_and_build r (fst b) (snd b)) bufs).
    unfold parse_and_build.
    assert (Hinv : parser_invariant (r, header_buffer_empty)).
    { exact (conj Hb (conj Hh (conj eq_refl (conj eq_refl (or_introl eq_refl))))). }
    pose proof (consume_invariant (bytes_upto (Z.to_nat (snd b)) (fst b)) _ Hinv)
      as (H1 & H2 & _).
    destruct (consume_body_untouched (bytes_upto (Z.to_nat (snd b)) (fst b)) r
                header_buffer_empty Hinv) as [Hb1 Hn1].
    destruct (IH _ H1 H2) as (G1 & G2 & G3).
    repeat split; [exact G1 | congruence | congruence]. }
  apply (G request_default); [discriminate |].
  intros k v Hl. simpl in Hl. now rewrite lookup_empty in Hl.
Qed.

Lemma step_buffer_outside_line (r : request) (hb : header_buffer) (c : ascii) :
  (hb = header_buffer_empty ∨ state_ r = parse_state.header_key
   ∨ state_ r = parse_state.header_value) →
  snd (step (r, hb) c) = header_buffer_empty
  ∨ state_ (fst (step (r, hb) c)) = parse_state.header_key
  ∨ state_ (fst (step (r, hb) c)) = parse_state.header_value.
Proof.
  intros He. unfold step.
  destruct (state_ r) eqn:Hst; simpl;
    repeat match goal with
           | |- context [if ?b then _ else _] => destruct b; simpl
           end;
    rewrite ?Hst;
    try (now left); try (now right; left); try (now right; right);
    destruct He as [He | [He | He]]; (discriminate || (now left)).
Qed.

Lemma consume_buffer_outside_line (bytes : string) :
  ∀ (r : request) (hb : header_buffer),
    (hb = header_buffer_empty ∨ state_ r = parse_state.header_key
     ∨ state_ r = parse_state.header_value) →
    snd (consume (r, hb) bytes) = header_buffer_empty
    ∨ state_ (fst (consume (r, hb) bytes)) = parse_state.header_key
    ∨ state_ (fst (consume (r, hb) bytes)) = parse_state.header_value.
Proof.
  induction bytes as [|c bytes IH]; intros r hb He; [exact He |].
  rewrite consume_cons.
  pose proof (step_buffer_outside_line r hb c He) as Hs.
  destruct (step (r, hb) c) as [r1 hb1]. now apply IH.
Qed.

(** X5: when no chunk ends inside a header line (after each call the parser
    is neither in a header name nor in a header value), feeding the chunks
    one by one gives the same request, headers included, as one call on the
    whole stream. *)
Theorem feed_all_cuts_between_lines (chunks : list string) :
  ∀ r : request,
    cuts_between_lines r chunks → feed_all r chunks = feed r (join chunks).
Proof.
  induction chunks as [|ch chunks IH]; intros r Hc.
  - now rewrite feed_consume.
  - destruct Hc as (Hk & Hv & Hrest).
    change (feed_all r (ch :: chunks)) with (feed_all (feed r ch) chunks).
    rewrite (IH _ Hrest), !feed_consume.
    change (join (ch :: chunks)) with (ch +:+ join chunks).
    rewrite consume_app.
    rewrite feed_consume in Hk, Hv.
    destruct (consume_buffer_outside_line ch r header_buffer_empty (or_introl eq_refl))
      as [He | [He | He]]; try contradiction.
    destruct (consume (r, header_buffer_empty) ch) as [r1 hb1]. simpl in He. subst hb1.
    reflexivity.
Qed.

(** X4: the state and every field filled from the request line are the same
    for every chunking of a stream; only the header map depends on where
    the chunks are cut. *)
Theorem chunking_preserves_line_fields (chunks : list string) (r : request) :
  state_ (feed_all r chunks) = state_ (feed r (join chunks))
  ∧ method_ (feed_all r chunks) = method_ (feed r (join chunks))
  ∧ original_url_ (feed_all r chunks) = original_url_ (feed r (join chunks))
  ∧ path_ (feed_all r chunks) = path_ (feed r (join chunks))
  ∧ protocol_ (feed_all r chunks) = protocol_ (feed r (join chunks))
  ∧ http_version_ (feed_all r chunks) = http_version_ (feed r (join chunks))
  ∧ body_ (feed_all r chunks) = body_ (feed r (join chunks))
  ∧ hostname_ (feed_all r chunks) = hostname_ (feed r (join chunks)).
Proof.
  pose proof (feed_all_line_fields chunks r) as H. unfold line_fields in H.
  injection H as H1 H2 H3 H4 H5 H6 H7 H8. repeat split; assumption.
Qed.

Lemma feed_all_cuts_between_lines_witness :
  feed_all request_default
    ["GET / HT"; "TP/1.1" +:+ String CR ""; String LF "Host: a" +:+ newline; newline]
  = feed request_default
      (join ["GET / HT"; "TP/1.1" +:+ String CR ""; String LF "Host: a" +:+ newline; newline]).
Proof.
  apply feed_all_cuts_between_lines.
  vm_compute. repeat split; discriminate.
Defined.

End ParserInvariant.

(** ** Polling the operating system *)
Section Polling.

(** X6: in the read loop of [server::listen] the answers of [::recv] that
    only say "no data yet" (negative, errno EAGAIN) leave no trace: the loop
    ends as it does on the script without them. *)
Theorem read_request_skips_would_block (EAGAIN : Z) (sock : Incremental.socket)
    (answers : list (string * Z * Z)) :
  Incremental.accepted_sock_ sock ≠ 0 →
  ∀ req : Incremental.request,
    Incremental.read_request EAGAIN sock req answers
    = Incremental.read_request EAGAIN sock req
        (List.filter (λ a, negb (would_block EAGAIN a)) answers).
Proof.
  intros Hacc. apply Z.eqb_neq in Hacc.
  induction answers as [|[[buffer n] errno] answers IH]; intros req; [reflexivity |].
  simpl List.filter. unfold would_block at 1. simpl fst; simpl snd.
  destruct (n <? 0) eqn:Hn; simpl andb.
  - destruct (errno =? EAGAIN) eqn:He; simpl negb; cbv iota.
    + simpl Incremental.read_request at 1. unfold Incremental.recv at 1.
      rewrite Hacc, Hn, He.
      assert ((n =? 0) = false) as -> by (apply Z.eqb_neq; apply Z.ltb_lt in Hn; lia).
      rewrite Hn. apply IH.
    + simpl. unfold Incremental.recv. now rewrite Hacc, Hn, He.
  - simpl. unfold Incremental.recv. rewrite Hacc, Hn.
    destruct (n =? 0); [reflexivity |]. rewrite Hn.
    destruct (parse_state.eqb _ _); [reflexivity | apply IH].
Qed.

Lemma read_request_skips_would_block_witness :
  Incremental.read_request 11 (Incremental.mk_socket 3 4 3000) Incremental.request_default
    [("", -1, 11); (host_request, 27, 0)]
  = Incremental.read_request 11 (Incremental.mk_socket 3 4 3000) Incremental.request_default
      (List.filter (λ a, negb (would_block 11 a)) [("", -1, 11); (host_request, 27, 0)]).
Proof.
  apply read_request_skips_would_block. discriminate.
Defined.

Lemma accept_loop_finished (EAGAIN : Z) (answers : list (Z * Z)) :
  ∀ s s' : Incremental.socket,
    Incremental.accept_loop EAGAIN s answers = (s', Finished tt) →
    0 < Incremental.accepted_sock_ s' ∧ Incremental.sock_ s' = Incremental.sock_ s
    ∧ Incremental.port_ s' = Incremental.port_ s.
Proof.
  induction answers as [|[fd errno] answers IH]; intros s s' H; [discriminate |].
  simpl in H. destruct (fd <=? 0) eqn:Hfd.
  - destruct (errno =? EAGAIN); [| discriminate].
    destruct (IH _ _ H) as (H1 & H2 & H3). now repeat split.
  - injection H as <-. simpl. apply Z.leb_gt in Hfd. now repeat split.
Qed.

(** X7: when [socket::accept] returns, the listening descriptor was created,
    the accepted descriptor is positive (descriptor 0 is retried or
    reported like a failure), and [recv] no longer throws a [logic_error]. *)
Theorem accept_then_recv (EAGAIN : Z) (s s' : Incremental.socket) (answers : list (Z * Z)) :
  Incremental.accept EAGAIN s answers = (s', Finished tt) →
  Incremental.sock_ s ≠ 0 ∧ 0 < Incremental.accepted_sock_ s'
  ∧ Incremental.sock_ s' = Incremental.sock_ s
  ∧ ∀ (os_recv errno : Z) (what : string),
      Incremental.recv EAGAIN s' os_recv errno ≠ Throw (logic_error what).
Proof.
  unfold Incremental.accept. destruct (Incremental.sock_ s =? 0) eqn:Hs; [discriminate |].
  intros H. apply accept_loop_finished in H as (H1 & H2 & H3).
  apply Z.eqb_neq in Hs. repeat split; try assumption.
  intros os_recv errno what. unfold Incremental.recv.
  assert ((Incremental.accepted_sock_ s' =? 0) = false) as -> by (apply Z.eqb_neq; lia).
  destruct (os_recv <? 0); [destruct (errno =? EAGAIN) |]; discriminate.
Qed.

Lemma accept_then_recv_witness :
  Incremental.sock_ (Incremental.mk_socket 3 0 3000) ≠ 0
  ∧ 0 < Incremental.accepted_sock_ (Incremental.mk_socket 3 4 3000)
  ∧ Incremental.sock_ (Incremental.mk_socket 3 4 3000)
    = Incremental.sock_ (Incremental.mk_socket 3 0 3000)
  ∧ ∀ (os_recv errno : Z) (what : string),
      Incremental.recv 11 (Incremental.mk_socket 3 4 3000) os_recv errno
      ≠ Throw (logic_error what).
Proof.
  apply (accept_then_recv 11 (Incremental.mk_socket 3 0 3000)
           (Incremental.mk_socket 3 4 3000) [(-1, 11); (0, 11); (4, 0)]).
  reflexivity.
Defined.

Lemma recv_loop_no_logic_error (answers : list (string * Z)) :
  ∀ (response : string) (what : string),
    OnePass.recv_loop response answers ≠ Raised (logic_error what).
Proof.
  induction answers as [|[buf n] answers IH]; intros response what; [discriminate |].
  simpl. destruct (n =? 0); [discriminate |]. destruct (n <? 0); [discriminate |].
  destruct (OnePass.ends_with_delimiter _) as [[|] |]; try discriminate. apply IH.
Qed.

(** X8: one-pass variant. When [socket::accept] returns, the descriptor it
    stored is not negative; the following [recv] throws "socket is not
    accepted" exactly when that descriptor is 0. *)
Theorem one_pass_accept_then_recv (s s' : OnePass.socket) (os_accept : Z)
    (answers : list (string * Z)) :
  OnePass.accept s os_accept = (s', Ok tt) →
  OnePass.sock_ s ≠ 0 ∧ 0 ≤ os_accept ∧ OnePass.accepted_sock_ s' = os_accept
  ∧ (OnePass.recv s' answers = Raised (logic_error "socket is not accepted")
     ↔ os_accept = 0).
Proof.
  unfold OnePass.accept. destruct (OnePass.sock_ s =? 0) eqn:Hs; [discriminate |].
  destruct (os_accept <? 0) eqn:Hfd; [discriminate |].
  intros [= <-]. simpl. apply Z.eqb_neq in Hs. apply Z.ltb_ge in Hfd.
  repeat split; try assumption.
  - unfold OnePass.recv. simpl. destruct (Z.eqb_spec os_accept 0); [trivial |].
    intros H. now apply recv_loop_no_logic_error in H.
  - intros ->. reflexivity.
Qed.

Lemma one_pass_accept_then_recv_witness :
  OnePass.sock_ (OnePass.mk_socket 3 0 3000) ≠ 0 ∧ 0 ≤ 0
  ∧ OnePass.accepted_sock_ (OnePass.mk_socket 3 0 3000) = 0
  ∧ (OnePass.recv (OnePass.mk_socket 3 0 3000) [("x", 1)]
     = Raised (logic_error "socket is not accepted") ↔ 0 = 0).
Proof.
  apply (one_pass_accept_then_recv (OnePass.mk_socket 3 0 3000)).
  reflexivity.
Defined.

End Polling.

(** ** The one-pass parser on every input *)
Section OnePassRequest.
Import OnePass.

Lemma length_append (a b : string) :
  String.length (a +:+ b) = (String.length a + String.length b)%nat.
Proof. induction a as [|c a IH]; [reflexivity |]. rewrite append_cons. simpl. now rewrite IH. Qed.

Lemma bytes_upto_all (n : nat) (s : string) :
  (String.length s ≤ n)%nat → bytes_upto n s = s.
Proof.
  revert n. induction s as [|c s IH]; intros n H.
  - now destruct n.
  - destruct n as [|n]; simpl in H; [lia |]. simpl. rewrite IH; [reflexivity | lia].
Qed.

Lemma bytes_upto_exact_length (n : nat) (s : string) :
  (n ≤ String.length s)%nat → String.length (bytes_upto n s) = n.
Proof.
  revert s. induction n as [|n IH]; intros s H; [reflexivity |].
  destruct s as [|c s]; simpl in H; [lia |]. simpl. rewrite IH; [reflexivity | lia].
Qed.

Lemma bytes_upto_drop_bytes (n : nat) (s : string) : bytes_upto n s +:+ drop_bytes n s = s.
Proof.
  revert s. induction n as [|n IH]; intros s; [reflexivity |].
  destruct s as [|c s]; [reflexivity |]. simpl. now rewrite append_cons, IH.
Qed.

Lemma drop_bytes_length (n : nat) (s : string) :
  String.length (drop_bytes n s) = (String.length s - n)%nat.
Proof.
  revert s. induction n as [|n IH]; intros s; simpl; [lia |].
  destruct s as [|c s]; [reflexivity |]. simpl. apply IH.
Qed.

Lemma drop_bytes_app (a b : string) : drop_bytes (String.length a) (a +:+ b) = b.
Proof. induction a as [|c a IH]; [reflexivity |]. rewrite append_cons. simpl. exact IH. Qed.

Lemma drop_drop (a b : nat) (s : string) :
  drop_bytes a (drop_bytes b s) = drop_bytes (b + a) s.
Proof.
  revert s. induction b as [|b IH]; intros s; [reflexivity |].
  destruct s as [|c s]; simpl; [now destruct a | apply IH].
Qed.

Lemma range_from_start (n : nat) (s : string) : range 0 n s = bytes_upto n s.
Proof. unfold range. simpl. now rewrite Nat.sub_0_r. Qed.

Lemma range_to_end (i : nat) (s : string) : range i (String.length s) s = drop_bytes i s.
Proof.
  unfold range. apply bytes_upto_all. rewrite drop_bytes_length. lia.
Qed.

Lemma prefix_spec (p s : string) :
  String.prefix p s = true → ∃ post : string, s = p +:+ post.
Proof.
  revert s. induction p as [|c p IH]; intros s H.
  - now exists s.
  - destruct s as [|d s]; [discriminate |]. simpl in H.
    destruct (ascii_dec c d) as [-> | Hne]; [| discriminate].
    destruct (IH s H) as [post ->]. now exists post.
Qed.

(** Where [find_sub] stops short of the end there is an occurrence. *)
Lemma find_sub_occurrence (pat s : string) :
  find_sub pat s ≠ String.length s →
  ∃ post : string, s = bytes_upto (find_sub pat s) s +:+ pat +:+ post.
Proof.
  induction s as [|c s IH]; rewrite find_sub_unfold.
  - destruct (String.prefix pat ""); intros H; now contradiction H.
  - destruct (String.prefix pat (String c s)) eqn:E; intros H.
    + apply prefix_spec in E as [post E]. exists post. exact E.
    + simpl in H. destruct IH as [post Hpost]; [lia |].
      exists post. simpl. rewrite append_cons. now rewrite <- Hpost.
Qed.

Lemma find_char_split (c : ascii) (s : string) :
  (find_char c s < String.length s)%nat →
  s = bytes_upto (find_char c s) s +:+ String c (drop_bytes (S (find_char c s)) s).
Proof.
  induction s as [|d s IH]; simpl; [lia |].
  destruct (Ascii.eqb_spec d c) as [-> | Hne]; intros H; [reflexivity |].
  simpl. rewrite append_cons. f_equal. apply IH. lia.
Qed.

(** What a successful [parse] of a non-empty buffer has computed. *)
Lemma parse_ok_inv (raw : string) (req : request) :
  parse raw = Some (Ok req) → raw ≠ EmptyString →
  let raw_end := String.length raw in
  let headers_end := search raw 0 raw_end delimiter in
  let header_end := search raw 0 headers_end newline in
  let request_line := range 0 header_end raw in
  let line_end := String.length request_line in
  let method_end := find request_line 0 line_end SP in
  let original_url_end := find request_line (method_end + 1) line_end SP in
  let original_url := range (method_end + 1) original_url_end request_line in
  let protocol_end := find request_line (original_url_end + 1) line_end "/"%char in
  (headers_end ≠ raw_end ∧ method_end + 1 ≤ line_end ∧ original_url_end + 1 ≤ line_end
   ∧ protocol_end + 1 ≤ line_end)%nat
  ∧ raw_request_ req = raw
  ∧ body_ req = range (headers_end + 4) raw_end raw
  ∧ method_ req = transform_tolower (range 0 method_end request_line)
  ∧ original_url_ req = original_url
  ∧ path_ req = range 0 (find original_url 0 (String.length original_url) "?"%char)
                      original_url
  ∧ protocol_ req
    = transform_tolower (range (original_url_end + 1) protocol_end request_line)
  ∧ http_version_ req = range (protocol_end + 1) line_end request_line.
Proof.
  intros H Hne. unfold parse in H.
  apply String.eqb_neq in Hne. rewrite Hne in H. cbv zeta in H. cbv zeta.
  destruct (_ =? _)%nat eqn:E1 in H; [discriminate |].
  destruct (_ <? _)%nat eqn:E2 in H; [discriminate |].
  destruct (_ <? _)%nat eqn:E3 in H; [discriminate |].
  destruct (_ <? _)%nat eqn:E4 in H; [discriminate |].
  destruct (parse_headers _ _ _ _ _) as [[h | e |] |]; try discriminate.
  destruct (umap_index "Host" h) as [host h'].
  injection H as <-. simpl.
  apply Nat.eqb_neq in E1. apply Nat.ltb_ge in E2, E3, E4.
  repeat split; (assumption || reflexivity).
Qed.


Lemma find_from (s : string) (i : nat) (c : ascii) :
  find s i (String.length s) c = (i + find_char c (drop_bytes i s))%nat.
Proof. unfold find. now rewrite range_to_end. Qed.

Lemma range_take (i n : nat) (s : string) :
  range i (i + n) s = bytes_upto n (drop_bytes i s).
Proof. unfold range. now replace (i + n - i)%nat with n by lia. Qed.

(** A line cut at its first space, the next space and the next slash. *)
Lemma line_split (line : string) :
  let line_end := String.length line in
  let method_end := find line 0 line_end SP in
  let original_url_end := find line (method_end + 1) line_end SP in
  let protocol_end := find line (original_url_end + 1) line_end "/"%char in
  (method_end + 1 ≤ line_end → original_url_end + 1 ≤ line_end →
   protocol_end + 1 ≤ line_end →
   line = range 0 method_end line
          +:+ String SP (range (method_end + 1) original_url_end line
          +:+ String SP (range (original_url_end + 1) protocol_end line
          +:+ String "/"%char (range (protocol_end + 1) line_end line)))
   ∧ no_char SP (range 0 method_end line) = true
   ∧ no_char SP (range (method_end + 1) original_url_end line) = true
   ∧ no_char "/" (range (original_url_end + 1) protocol_end line) = true)%nat.
Proof.
  intros line_end method_end original_url_end protocol_end.
  subst protocol_end original_url_end method_end line_end.
  rewrite !find_from. change (drop_bytes 0 line) with line. rewrite !Nat.add_0_l.
  set (k1 := find_char SP line).
  set (rest1 := drop_bytes (k1 + 1) line).
  set (k2 := find_char SP rest1).
  set (rest2 := drop_bytes (k1 + 1 + k2 + 1) line).
  set (k3 := find_char "/" rest2).
  intros B1 B2 B3.
  rewrite range_from_start, !range_take, range_to_end.
  fold rest1. fold rest2.
  assert (E1 : rest1 = drop_bytes (S k1) line) by (unfold rest1; f_equal; lia).
  assert (E2 : rest2 = drop_bytes (S k2) rest1).
  { unfold rest2, rest1. rewrite drop_drop. f_equal. lia. }
  assert (E3 : drop_bytes (k1 + 1 + k2 + 1 + k3 + 1) line = drop_bytes (S k3) rest2).
  { unfold rest2. rewrite drop_drop. f_equal. lia. }
  rewrite E3.
  assert (L1 : String.length rest1 = (String.length line - (k1 + 1))%nat)
    by (unfold rest1; apply drop_bytes_length).
  assert (L2 : String.length rest2 = (String.length line - (k1 + 1 + k2 + 1))%nat)
    by (unfold rest2; apply drop_bytes_length).
  pose proof (find_char_split SP line ltac:(fold k1; lia)) as S1. fold k1 in S1.
  pose proof (find_char_split SP rest1 ltac:(fold k2; lia)) as S2. fold k2 in S2.
  pose proof (find_char_split "/"%char rest2 ltac:(fold k3; lia)) as S3. fold k3 in S3.
  rewrite <- E1 in S1. rewrite <- E2 in S2.
  repeat split.
  - rewrite <- S3, <- S2. exact S1.
  - apply bytes_upto_find_char.
  - apply bytes_upto_find_char.
  - apply bytes_upto_find_char.
Qed.


Lemma prefix_complete (p post : string) : String.prefix p (p +:+ post) = true.
Proof.
  induction p as [|c p IH]; [now destruct post |].
  rewrite append_cons. simpl. destruct (ascii_dec c c); [exact IH | contradiction].
Qed.

(** [find_sub] stops at the first occurrence. *)
Lemma find_sub_first (pat pre post : string) :
  (find_sub pat (pre +:+ pat +:+ post) ≤ String.length pre)%nat.
Proof.
  induction pre as [|c pre IH]; rewrite find_sub_unfold.
  - rewrite append_nil_l, prefix_complete. lia.
  - destruct (String.prefix pat _); [lia |]. rewrite append_cons. simpl. lia.
Qed.

Lemma search_whole (raw pat : string) :
  search raw 0 (String.length raw) pat = find_sub pat raw.
Proof. unfold search. now rewrite range_to_end. Qed.

(** X9: [request::parse] ends on every buffer: it returns, throws or runs
    into undefined behaviour, and the header loop never needs more turns
    than the buffer has bytes. *)
Theorem one_pass_parse_terminates (raw : string) :
  ∃ outcome : result request, parse raw = Some outcome.
Proof.
  pose proof (parse_total raw) as H.
  destruct (parse raw) as [outcome |]; [now exists outcome | contradiction].
Qed.

(** The header loop throws one error only. *)
Lemma parse_headers_throws (fuel : nat) :
  ∀ (raw : string) (headers_end header_begin : nat) (h : gmap string string) (e : exn),
    parse_headers fuel raw headers_end header_begin h = Some (Throw e) →
    e = runtime_error "key end not found".
Proof.
  induction fuel as [|fuel IH]; intros raw he hb h e H.
  - simpl in H. destruct (he <=? hb)%nat; discriminate.
  - rewrite parse_headers_unfold in H.
    destruct (he <=? hb)%nat; [discriminate |]. cbv zeta in H.
    destruct (_ =? _)%nat; [now injection H |].
    destruct (_ <? _)%nat; [discriminate |].
    now apply IH in H.
Qed.

(** X10: [request::parse] throws "there is not delimiter in the raw request"
    exactly for the non-empty buffers that contain no CRLF CRLF. *)
Theorem one_pass_missing_delimiter (raw : string) :
  parse raw = Some (Throw (runtime_error "there is not delimiter in the raw request"))
  ↔ raw ≠ EmptyString ∧ ∀ pre post : string, raw ≠ pre +:+ delimiter +:+ post.
Proof.
  unfold parse. split.
  - destruct (String.eqb_spec raw EmptyString) as [-> | Hne]; [discriminate |].
    cbv zeta. rewrite search_whole.
    destruct (find_sub delimiter raw =? String.length raw)%nat eqn:E.
    + intros _. split; [exact Hne |]. intros pre post ->.
      apply Nat.eqb_eq in E.
      pose proof (find_sub_first delimiter pre post) as Hle.
      rewrite E, !length_append in Hle. simpl in Hle. lia.
    + destruct (_ <? _)%nat; [discriminate |].
      destruct (_ <? _)%nat; [discriminate |].
      destruct (_ <? _)%nat; [discriminate |].
      destruct (parse_headers _ _ _ _ _) as [[h | e |] |] eqn:Hp; try discriminate.
      * destruct (umap_index "Host" h). discriminate.
      * apply parse_headers_throws in Hp as ->. discriminate.
  - intros [Hne Hno].
    apply String.eqb_neq in Hne. rewrite Hne. cbv zeta. rewrite search_whole.
    destruct (find_sub delimiter raw =? String.length raw)%nat eqn:E; [reflexivity |].
    apply Nat.eqb_neq in E. apply find_sub_occurrence in E as [post E].
    exfalso. exact (Hno _ _ E).
Qed.


Lemma one_pass_missing_delimiter_witness :
  parse ("GET / HTTP/1.1" +:+ newline)
  = Some (Throw (runtime_error "there is not delimiter in the raw request")).
Proof.
  apply one_pass_missing_delimiter. split; [discriminate |].
  intros pre post H.
  assert (Hf : find_sub delimiter ("GET / HTTP/1.1" +:+ newline) = 16%nat)
    by (vm_compute; reflexivity).
  pose proof (find_sub_first delimiter pre post) as Hle.
  rewrite <- H, Hf in Hle.
  assert (Hl : String.length ("GET / HTTP/1.1" +:+ newline) = 16%nat)
    by (vm_compute; reflexivity).
  rewrite H, !length_append in Hl. simpl in Hl. lia.
Defined.

(** X11: for every non-empty buffer that parses, the buffer is a head, the
    CRLF CRLF delimiter and the body stored in the request, the head ending
    at the first delimiter of the buffer; the request keeps the buffer. *)
Theorem one_pass_body_split (raw : string) (req : request) :
  parse raw = Some (Ok req) → raw ≠ EmptyString →
  ∃ head : string,
    raw = head +:+ delimiter +:+ body_ req
    ∧ raw_request_ req = raw
    ∧ ∀ pre post : string,
        raw = pre +:+ delimiter +:+ post → (String.length head ≤ String.length pre)%nat.
Proof.
  intros H Hne.
  destruct (parse_ok_inv raw req H Hne) as ((B1 & _) & Hraw & Hbody & _).
  rewrite search_whole in B1, Hbody.
  destruct (find_sub_occurrence delimiter raw B1) as [post Hpost].
  pose proof (find_sub_le delimiter raw) as Hle.
  assert (Hlen : String.length (bytes_upto (find_sub delimiter raw) raw)
                 = find_sub delimiter raw) by (apply bytes_upto_exact_length; exact Hle).
  exists (bytes_upto (find_sub delimiter raw) raw). repeat split.
  - rewrite Hbody, range_to_end.
    replace (drop_bytes (find_sub delimiter raw + 4) raw) with post; [exact Hpost |].
    rewrite Hpost at 2. rewrite <- append_assoc.
    replace (find_sub delimiter raw + 4)%nat
      with (String.length (bytes_upto (find_sub delimiter raw) raw +:+ delimiter)).
    + now rewrite drop_bytes_app.
    + rewrite length_append, Hlen. reflexivity.
  - exact Hraw.
  - intros pre post' ->. rewrite Hlen. apply find_sub_first.
Qed.

Lemma one_pass_body_split_witness :
  ∃ req : request,
    parse (host_request +:+ "payload") = Some (Ok req)
    ∧ body_ req = "payload"
    ∧ ∃ head : string,
        host_request +:+ "payload" = head +:+ delimiter +:+ body_ req
        ∧ raw_request_ req = host_request +:+ "payload"
        ∧ ∀ pre post : string,
            host_request +:+ "payload" = pre +:+ delimiter +:+ post →
            (String.length head ≤ String.length pre)%nat.
Proof.
  eexists. split; [vm_compute; reflexivity |]. split; [vm_compute; reflexivity |].
  apply one_pass_body_split; [vm_compute; reflexivity | discriminate].
Defined.

(** X12: for every non-empty buffer that parses, the request line is
    [m SP original_url SP proto / http_version] where the stored method and
    protocol are [m] and [proto] lower-cased, [m] and the target hold no
    space, [proto] holds no slash, and the path is the target up to its
    first question mark. *)
Theorem one_pass_request_line_split (raw : string) (req : request) :
  parse raw = Some (Ok req) → raw ≠ EmptyString →
  ∃ m proto : string,
    request_line_of raw
    = m +:+ String SP (original_url_ req
        +:+ String SP (proto +:+ String "/"%char (http_version_ req)))
    ∧ method_ req = transform_tolower m ∧ protocol_ req = transform_tolower proto
    ∧ no_char SP m = true ∧ no_char SP (original_url_ req) = true
    ∧ no_char "/" proto = true
    ∧ no_char "?" (path_ req) = true
    ∧ (original_url_ req = path_ req
       ∨ ∃ query : string, original_url_ req = path_ req +:+ String "?"%char query).
Proof.
  intros H Hne.
  destruct (parse_ok_inv raw req H Hne)
    as ((_ & B2 & B3 & B4) & _ & _ & Hm & Hu & Hp & Hpr & Hv).
  fold (request_line_of raw) in *.
  destruct (line_split (request_line_of raw) B2 B3 B4) as (Hline & N1 & N2 & N3).
  rewrite <- Hu in Hp, Hline, N2. rewrite <- Hv in Hline.
  eexists _, _. rewrite Hm, Hpr.
  split; [exact Hline |].
  repeat split; try assumption.
  - rewrite Hp, range_from_start, find_from. apply bytes_upto_find_char.
  - rewrite Hp, range_from_start, find_from.
    apply (bytes_upto_find_char "?"%char).
Qed.

Lemma one_pass_request_line_split_witness :
  ∃ req : request,
    parse (request_line_example +:+ newline) = Some (Ok req)
    ∧ ∃ m proto : string,
        request_line_of (request_line_example +:+ newline)
        = m +:+ String SP (original_url_ req
            +:+ String SP (proto +:+ String "/"%char (http_version_ req)))
        ∧ method_ req = transform_tolower m ∧ protocol_ req = transform_tolower proto
        ∧ no_char SP m = true ∧ no_char SP (original_url_ req) = true
        ∧ no_char "/" proto = true
        ∧ no_char "?" (path_ req) = true
        ∧ (original_url_ req = path_ req
           ∨ ∃ query : string, original_url_ req = path_ req +:+ String "?"%char query).
Proof.
  eexists. split; [vm_compute; reflexivity |].
  apply one_pass_request_line_split; [vm_compute; reflexivity | discriminate].
Defined.

(** X13: every non-empty buffer that parses leaves an entry under [Host] in
    the header map (an empty one when no such header was sent), and the host
    name is that entry up to its first colon. *)
Theorem one_pass_host_entry (raw : string) (req : request) :
  parse raw = Some (Ok req) → raw ≠ EmptyString →
  ∃ host : string,
    headers_ req !! "Host" = Some host
    ∧ no_char ":" (hostname_ req) = true
    ∧ (host = hostname_ req
       ∨ ∃ port : string, host = hostname_ req +:+ String ":"%char port).
Proof.
  intros H Hne.
  assert (Hhost : ∃ host, headers_ req !! "Host" = Some host).
  { unfold parse in H. apply String.eqb_neq in Hne. rewrite Hne in H. cbv zeta in H.
    destruct (_ =? _)%nat in H; [discriminate |].
    destruct (_ <? _)%nat in H; [discriminate |].
    destruct (_ <? _)%nat in H; [discriminate |].
    destruct (_ <? _)%nat in H; [discriminate |].
    destruct (parse_headers _ _ _ _ _) as [[h | e |] |]; try discriminate.
    unfold umap_index in H. destruct (h !! "Host") as [v |] eqn:E.
    - injection H as <-. simpl. now exists v.
    - injection H as <-. simpl. rewrite lookup_insert_eq. now exists EmptyString. }
  destruct Hhost as [host Hhost]. exists host. split; [exact Hhost |].
  exact (one_pass_hostname raw req host H Hhost).
Qed.

Lemma one_pass_host_entry_witness :
  ∃ req : request,
    parse host_port_request = Some (Ok req)
    ∧ hostname_ req = "example.com"
    ∧ ∃ host : string,
        headers_ req !! "Host" = Some host
        ∧ no_char ":" (hostname_ req) = true
        ∧ (host = hostname_ req
           ∨ ∃ port : string, host = hostname_ req +:+ String ":"%char port).
Proof.
  eexists. split; [vm_compute; reflexivity |]. split; [vm_compute; reflexivity |].
  apply (one_pass_host_entry host_port_request); [vm_compute; reflexivity | discriminate].
Defined.

Lemma find_char_none (c : ascii) (s : string) :
  no_char c s = true → find_char c s = String.length s.
Proof.
  induction s as [|d s IH]; intros H; [reflexivity |].
  apply no_char_cons in H as [Hd H]. simpl.
  rewrite (ascii_eqb_false _ _ Hd). now rewrite IH.
Qed.

(** X14: a header line without a colon makes the header loop throw "key end
    not found". *)
Theorem header_without_colon (fuel : nat) (raw : string) (headers_end header_begin : nat)
    (h : gmap string string) :
  (header_begin < headers_end)%nat → (headers_end ≤ String.length raw)%nat →
  no_char ":" (range header_begin (search raw header_begin headers_end newline) raw) = true →
  parse_headers (S fuel) raw headers_end header_begin h
  = Some (Throw (runtime_error "key end not found")).
Proof.
  intros Hlt Hle Hno. rewrite parse_headers_unfold.
  destruct (headers_end <=? header_begin)%nat eqn:E.
  { apply Nat.leb_le in E. lia. }
  cbv zeta.
  pose proof (search_bounds raw header_begin headers_end newline ltac:(lia)) as Hb.
  set (header_end := search raw header_begin headers_end newline) in *.
  assert (Hfind : find raw header_begin header_end ":"%char = header_end).
  { unfold find. rewrite (find_char_none _ _ Hno). unfold range.
    rewrite bytes_upto_exact_length; [lia |]. rewrite drop_bytes_length. lia. }
  rewrite Hfind, Nat.eqb_refl. reflexivity.
Qed.

Lemma header_without_colon_witness :
  parse_headers 1 ("GET / HTTP/1.1" +:+ newline +:+ "Host a" +:+ delimiter) 22 16 ∅
  = Some (Throw (runtime_error "key end not found")).
Proof.
  apply header_without_colon; [lia | vm_compute; lia | vm_compute; reflexivity].
Defined.

End OnePassRequest.

(** ** Receiving, answering and dispatching *)
Section OnePassReceive.
Import OnePass.

Lemma get_drop (n : nat) :
  ∀ (s : string) (i : nat), String.get i (drop_bytes n s) = String.get (n + i) s.
Proof.
  induction n as [|n IH]; intros s i; [reflexivity |].
  destruct s as [|c s]; simpl; [now destruct i | apply IH].
Qed.

Lemma back_is_app (head tail : string) (k : nat) (c : ascii) :
  (k ≤ String.length tail)%nat →
  back_is (head +:+ tail) k c
  = match String.get (String.length tail - k) tail with
    | Some d => Some (Ascii.eqb d c)
    | None => None
    end.
Proof.
  intros Hk. unfold back_is. rewrite length_append.
  destruct (_ <? _)%nat eqn:E; [apply Nat.ltb_lt in E; lia |].
  replace (String.length head + String.length tail - k)%nat
    with ((String.length tail - k) + String.length head)%nat by lia.
  now rewrite <- append_correct2.
Qed.

Lemma ends_with_delimiter_app (head : string) :
  ends_with_delimiter (head +:+ delimiter) = Some true.
Proof.
  unfold ends_with_delimiter.
  rewrite !back_is_app by (simpl; lia). reflexivity.
Qed.

(** X15: the receive loop of the one-pass variant returns what it has
    gathered as soon as that ends with CRLF CRLF, also when the four bytes
    arrive in different reads; a request that arrives whole in one read is
    returned as it is. *)
Theorem one_pass_recv_until_delimiter (s : socket) (response head buf : string)
    (recv_size : Z) (rest : list (string * Z)) :
  accepted_sock_ s ≠ 0 → 0 < recv_size →
  response +:+ bytes_upto (Z.to_nat recv_size) buf = head +:+ delimiter →
  recv_loop response ((buf, recv_size) :: rest) = Finished (Ok (head +:+ delimiter))
  ∧ recv s ((head +:+ delimiter, Z.of_nat (String.length (head +:+ delimiter))) :: rest)
    = Finished (Ok (head +:+ delimiter)).
Proof.
  intros Hacc Hn Happ. split.
  - simpl. destruct (Z.eqb_spec recv_size 0); [lia |].
    destruct (Z.ltb_spec recv_size 0); [lia |].
    rewrite Happ, ends_with_delimiter_app. reflexivity.
  - unfold recv. apply Z.eqb_neq in Hacc. rewrite Hacc. simpl recv_loop.
    rewrite Nat2Z.id, bytes_upto_length, append_nil_l.
    assert (Hlen : (0 < String.length (head +:+ delimiter))%nat)
      by (rewrite length_append; simpl; lia).
    destruct (Z.eqb_spec (Z.of_nat (String.length (head +:+ delimiter))) 0); [lia |].
    destruct (Z.ltb_spec (Z.of_nat (String.length (head +:+ delimiter))) 0); [lia |].
    now rewrite ends_with_delimiter_app.
Qed.

Lemma one_pass_recv_until_delimiter_witness :
  recv_loop ("GET / HTTP/1.1" +:+ String CR "") [(String LF "" +:+ newline +:+ "junk", 3)]
  = Finished (Ok ("GET / HTTP/1.1" +:+ delimiter))
  ∧ recv (mk_socket 3 4 3000)
      [("GET / HTTP/1.1" +:+ delimiter,
        Z.of_nat (String.length ("GET / HTTP/1.1" +:+ delimiter)))]
    = Finished (Ok ("GET / HTTP/1.1" +:+ delimiter)).
Proof.
  apply (one_pass_recv_until_delimiter (mk_socket 3 4 3000));
    [discriminate | lia | reflexivity].
Defined.


Lemma back_is_true (r : string) (k : nat) (c : ascii) :
  back_is r k c = Some true →
  (k ≤ String.length r)%nat ∧ String.get (String.length r - k) r = Some c.
Proof.
  unfold back_is. destruct (_ <? _)%nat eqn:E; [discriminate |].
  apply Nat.ltb_ge in E.
  destruct (String.get _ r) as [d |] eqn:G; [| discriminate].
  intros [= H]. apply Ascii.eqb_eq in H as ->. now split.
Qed.

Lemma ends_with_delimiter_true (r : string) :
  ends_with_delimiter r = Some true → ∃ head : string, r = head +:+ delimiter.
Proof.
  unfold ends_with_delimiter.
  destruct (back_is r 1 LF) as [[|] |] eqn:B1; try discriminate.
  destruct (back_is r 2 CR) as [[|] |] eqn:B2; try discriminate.
  destruct (back_is r 3 LF) as [[|] |] eqn:B3; try discriminate.
  intros B4.
  apply back_is_true in B1 as [_ G1]. apply back_is_true in B2 as [_ G2].
  apply back_is_true in B3 as [_ G3]. apply back_is_true in B4 as [L4 G4].
  exists (bytes_upto (String.length r - 4) r).
  rewrite <- (bytes_upto_drop_bytes (String.length r - 4) r) at 1. f_equal.
  pose proof (drop_bytes_length (String.length r - 4) r) as Hlen.
  pose proof (get_drop (String.length r - 4) r) as Hget.
  destruct (drop_bytes (String.length r - 4) r) as [|a [|b [|c [|d [|e t]]]]];
    simpl in Hlen; try lia.
  pose proof (Hget 0%nat) as H0. pose proof (Hget 1%nat) as H1.
  pose proof (Hget 2%nat) as H2. pose proof (Hget 3%nat) as H3.
  simpl in H0, H1, H2, H3.
  replace (String.length r - 4 + 0)%nat with (String.length r - 4)%nat in H0 by lia.
  replace (String.length r - 4 + 1)%nat with (String.length r - 3)%nat in H1 by lia.
  replace (String.length r - 4 + 2)%nat with (String.length r - 2)%nat in H2 by lia.
  replace (String.length r - 4 + 3)%nat with (String.length r - 1)%nat in H3 by lia.
  rewrite G4 in H0. rewrite G3 in H1. rewrite G2 in H2. rewrite G1 in H3.
  injection H0 as ->. injection H1 as ->. injection H2 as ->. injection H3 as ->.
  reflexivity.
Qed.

(** X16: unless the peer closes the connection, what the receive loop of the
    one-pass variant returns ends with CRLF CRLF: a delimiter followed by
    more bytes in the same read does not end the loop. *)
Theorem one_pass_recv_result (answers : list (string * Z)) :
  ∀ response r : string,
    Forall (λ a, snd a ≠ 0) answers →
    recv_loop response answers = Finished (Ok r) →
    ∃ head : string, r = head +:+ delimiter.
Proof.
  induction answers as [|[buf n] answers IH]; intros response r Hall H; [discriminate |].
  inversion Hall as [|? ? Hn Hrest]; subst. simpl in Hn, H.
  apply Z.eqb_neq in Hn. rewrite Hn in H.
  destruct (n <? 0); [discriminate |].
  destruct (ends_with_delimiter _) as [[|] |] eqn:E; try discriminate.
  - injection H as <-. now apply ends_with_delimiter_true.
  - now apply (IH _ _ Hrest H).
Qed.

Lemma one_pass_recv_result_witness :
  ∃ head : string, "POST / HTTP/1.1" +:+ delimiter +:+ "a=1" +:+ delimiter = head +:+ delimiter.
Proof.
  apply (one_pass_recv_result
           [("POST / HTTP/1.1" +:+ delimiter +:+ "a=1", 22); (delimiter, 4)] "").
  - repeat constructor; discriminate.
  - vm_compute. reflexivity.
Defined.

End OnePassReceive.

Section Responses.

(** X17: one-pass variant. [get_header] returns the value [set_header]
    stored under exactly that name, a later value replaces an earlier one,
    other names are not affected, and a name that was never set throws
    [out_of_range]. *)
Theorem one_pass_header_round_trip (res : OnePass.response) (header value other : string) :
  OnePass.get_header (OnePass.set_header res header value) header = Ok value
  ∧ (other ≠ header →
     OnePass.get_header (OnePass.set_header res header value) other
     = OnePass.get_header res other)
  ∧ OnePass.set_header (OnePass.set_header res header other) header value
    = OnePass.set_header res header value
  ∧ (OnePass.res_headers_ res !! other = None →
     OnePass.get_header res other = Throw out_of_range).
Proof.
  unfold OnePass.get_header, OnePass.set_header. simpl. repeat split.
  - now rewrite lookup_insert_eq.
  - intros Hne. now rewrite lookup_insert_ne by congruence.
  - now rewrite insert_insert_eq.
  - now intros ->.
Qed.

Lemma one_pass_header_round_trip_witness :
  OnePass.get_header
    (OnePass.set_header (OnePass.response_new one_pass_request) "Content-Type" "text/plain")
    "content-type"
  = OnePass.get_header (OnePass.response_new one_pass_request) "content-type"
  ∧ OnePass.get_header (OnePass.response_new one_pass_request) "content-type"
    = Throw out_of_range.
Proof.
  split.
  - apply (proj1 (proj2 (one_pass_header_round_trip
                           (OnePass.response_new one_pass_request)
                           "Content-Type" "text/plain" "content-type"))).
    discriminate.
  - apply (proj2 (proj2 (proj2 (one_pass_header_round_trip
                                  (OnePass.response_new one_pass_request)
                                  "Content-Type" "text/plain" "content-type")))).
    reflexivity.
Defined.

Lemma header_lines_app (l1 l2 : list (string * string)) :
  header_lines (l1 ++ l2) = header_lines l1 +:+ header_lines l2.
Proof.
  induction l1 as [|[h v] l1 IH]; [reflexivity |].
  simpl. now rewrite IH, !append_assoc.
Qed.

Lemma own_header_line (first : string) (order : list (string * string))
    (header value tail : string) :
  In (header, value) order →
  has_line (((first +:+ newline) +:+ header_lines order) +:+ tail)
           (header +:+ ": " +:+ value).
Proof.
  intros Hin. apply in_split in Hin as (l1 & l2 & ->).
  rewrite header_lines_app. simpl header_lines.
  destruct (header_lines_end l1 first) as [pre Hpre].
  apply (has_line_intro _ pre _ (header_lines l2 +:+ tail)).
  rewrite <- Hpre. now rewrite !append_assoc.
Qed.

(** X18: every header of the response map is sent as a line [name: value]
    of the header block, in both variants and for every body. *)
Theorem own_headers_are_sent (order : list (string * string)) (header value : string)
    (table : gmap Z string) (body : string) :
  In (header, value) order →
  (∀ res : Incremental.response,
      has_line (fst (Incremental.render res order table body))
               (header +:+ ": " +:+ value))
  ∧ (∀ res : OnePass.response,
      has_line (fst (OnePass.render res order table body))
               (header +:+ ": " +:+ value)).
Proof.
  intros Hin. split; intros res.
  - unfold Incremental.render.
    destruct (select_message _ _ _) as [message table'].
    rewrite write_headers_lines. simpl fst. rewrite append_nil_l.
    set (first := Incremental.protocol_ (Incremental.request_ res) +:+ "/"
                  +:+ Incremental.http_version_ (Incremental.request_ res) +:+ " "
                  +:+ show_int (Incremental.status_ res) +:+ " " +:+ message).
    destruct (negb (String.eqb body EmptyString)).
    + pose proof (own_header_line first order header value
        ("Content-Length: " +:+ show_size (String.length body) +:+ newline
           +:+ "Content-Type: text/html" +:+ newline
           +:+ "Connection: Keep-Alive" +:+ newline +:+ newline +:+ body) Hin) as G.
      unfold first in *. rewrite !append_assoc in G. rewrite !append_assoc. exact G.
    + pose proof (own_header_line first order header value
        ("Connection: Keep-Alive" +:+ newline +:+ newline) Hin) as G.
      unfold first in *. rewrite !append_assoc in G. rewrite !append_assoc. exact G.
  - unfold OnePass.render.
    destruct (select_message _ _ _) as [message table'].
    rewrite one_pass_write_headers_lines. simpl fst. rewrite append_nil_l.
    set (first := OnePass.protocol_ (OnePass.request_ res) +:+ "/"
                  +:+ OnePass.http_version_ (OnePass.request_ res) +:+ " "
                  +:+ show_int (OnePass.status_ res) +:+ " " +:+ message).
    pose proof (own_header_line first order header value
      ("Content-Length: " +:+ show_size (String.length body) +:+ newline
         +:+ "Content-Type: text/html" +:+ newline
         +:+ "Connection: Keep-Alive" +:+ newline +:+ newline +:+ body) Hin) as G.
    unfold first in *. rewrite !append_assoc in G. rewrite !append_assoc. exact G.
Qed.

Lemma own_headers_are_sent_witness :
  has_line (fst (OnePass.render (OnePass.response_new one_pass_request)
                   [("X-Id", "7"); ("Server", "nhs")] default_status_messages "hi"))
           ("Server" +:+ ": " +:+ "nhs").
Proof.
  apply (own_headers_are_sent [("X-Id", "7"); ("Server", "nhs")] "Server" "nhs").
  right. left. reflexivity.
Defined.

End Responses.

Section Dispatch.
Import OnePass.
Context {H : Type}.

Lemma invoked_cons (p : string) (h : H) (order : list (string * H)) (path : string) :
  invoked ((p, h) :: order) path
  = if String.eqb p path then h :: invoked order path else invoked order path.
Proof. unfold invoked. simpl. now destruct (String.eqb p path). Qed.

Lemma invoked_absent (order : list (string * H)) (path : string) :
  path ∉ order.*1 → invoked order path = [].
Proof.
  induction order as [|[p h] order IH]; intros Hn; [reflexivity |].
  rewrite invoked_cons. rewrite fmap_cons, not_elem_of_cons in Hn. destruct Hn as [Hne Hn].
  simpl in Hne. assert (String.eqb p path = false) as -> by (apply String.eqb_neq; congruence).
  now apply IH.
Qed.

Lemma invoked_present (order : list (string * H)) (path : string) (h : H) :
  NoDup order.*1 → (path, h) ∈ order → invoked order path = [h].
Proof.
  induction order as [|[p h'] order IH]; intros Hnd Hin.
  - now apply elem_of_nil in Hin.
  - rewrite fmap_cons, NoDup_cons in Hnd. destruct Hnd as [Hp Hnd]. simpl in Hp.
    rewrite invoked_cons. apply elem_of_cons in Hin as [Heq | Hin].
    + injection Heq as <- <-. rewrite String.eqb_refl.
      now rewrite invoked_absent.
    + assert (String.eqb p path = false) as ->.
      { apply String.eqb_neq. intros ->. apply Hp.
        apply list_elem_of_fmap. now exists (path, h). }
      now apply IH.
Qed.

(** X19: one-pass variant. The handler loop invokes the handler registered
    under the method and exactly the path of the request, once, and no
    other; for a method nothing was registered under it invokes none. The
    lookup of the method leaves every route as it was. *)
Theorem one_pass_dispatch (callbacks : gmap string (gmap string H))
    (method path : string) (order : list (string * H)) :
  order ≡ₚ map_to_list (fst (callbacks_index method callbacks)) →
  invoked order path
  = match callbacks !! method with
    | Some table => match table !! path with
                    | Some h => [h]
                    | None => []
                    end
    | None => []
    end
  ∧ ∀ (method' path' : string),
      fst (callbacks_index method' (snd (callbacks_index method callbacks))) !! path'
      = fst (callbacks_index method' callbacks) !! path'.
Proof.
  intros Hperm. split.
  - assert (Hnd : NoDup order.*1).
    { rewrite Hperm. apply NoDup_fst_map_to_list. }
    unfold callbacks_index in Hperm.
    destruct (callbacks !! method) as [table |] eqn:Et; simpl in Hperm.
    + destruct (table !! path) as [h |] eqn:E.
      * apply invoked_present; [exact Hnd |].
        rewrite Hperm. now apply elem_of_map_to_list.
      * apply invoked_absent. intros Hin.
        apply list_elem_of_fmap in Hin as [[p h] [Hp Hin]]. simpl in Hp. subst p.
        rewrite Hperm in Hin. apply elem_of_map_to_list in Hin. congruence.
    + rewrite map_to_list_empty in Hperm. apply Permutation_nil_r in Hperm as ->.
      reflexivity.
  - intros method' path'. unfold callbacks_index.
    destruct (callbacks !! method) as [table |] eqn:Et; simpl; [reflexivity |].
    destruct (decide (method = method')) as [<- | Hne].
    + rewrite lookup_insert_eq, Et. reflexivity.
    + rewrite lookup_insert_ne by exact Hne.
      destruct (callbacks !! method'); reflexivity.
Qed.

End Dispatch.

Lemma one_pass_dispatch_witness :
  OnePass.invoked [("/about", 2%nat); ("/", 1%nat)] "/"
  = match ({[ "get" := {[ "/" := 1%nat; "/about" := 2%nat ]} ]}
             : gmap string (gmap string nat)) !! "get" with
    | Some table => match table !! "/" with
                    | Some h => [h]
                    | None => []
                    end
    | None => []
    end.
Proof.
  refine (proj1 (one_pass_dispatch
                   ({[ "get" := {[ "/" := 1%nat; "/about" := 2%nat ]} ]}
                      : gmap string (gmap string nat))
                   "get" "/" [("/about", 2%nat); ("/", 1%nat)] _)).
  assert (E : map_to_list
                (fst (OnePass.callbacks_index "get"
                        ({[ "get" := {[ "/" := 1%nat; "/about" := 2%nat ]} ]}
                           : gmap string (gmap string nat))))
              ≡ₚ [("/about", 2%nat); ("/", 1%nat)]).
  { vm_compute. first [reflexivity | apply perm_swap]. }
  now rewrite E.
Defined.

(** * Whole requests: header names and repeated headers *)

(** ** The one-pass parser on well-formed requests *)

Section OnePassWhole.
Import OnePass.

Lemma no_char_app (c : ascii) (a b : string) :
  no_char c (a +:+ b) = (no_char c a && no_char c b)%bool.
Proof.
  unfold no_char. induction a as [|d a IH]; [reflexivity |].
  rewrite append_cons. simpl. now rewrite IH, andb_assoc.
Qed.

Lemma bytes_upto_app (a b : string) : bytes_upto (String.length a) (a +:+ b) = a.
Proof. induction a as [|c a IH]; [now destruct b |]. rewrite append_cons. simpl. now rewrite IH. Qed.

Lemma range_mid (a b c : string) :
  range (String.length a) (String.length a + String.length b) (a +:+ (b +:+ c)) = b.
Proof.
  unfold range.
  replace (String.length a + String.length b - String.length a)%nat
    with (String.length b) by lia.
  now rewrite drop_bytes_app, bytes_upto_app.
Qed.

Lemma range_front (a b : string) : range 0 (String.length a) (a +:+ b) = a.
Proof. rewrite range_from_start. apply bytes_upto_app. Qed.

Lemma range_back (a b : string) :
  range (String.length a) (String.length (a +:+ b)) (a +:+ b) = b.
Proof. rewrite range_to_end. apply drop_bytes_app. Qed.

Lemma prefix_cons (a b : ascii) (p s : string) :
  String.prefix (String a p) (String b s)
  = if ascii_dec a b then String.prefix p s else false.
Proof. reflexivity. Qed.

Lemma prefix_other (p s : string) (c : ascii) :
  c ≠ CR → String.prefix (String CR p) (String c s) = false.
Proof. intros H. rewrite prefix_cons. destruct (ascii_dec CR c); [congruence | reflexivity]. Qed.

(** Searching for a pattern that begins with CR runs over bytes that are
    not CR. *)
Lemma find_sub_skip (p a s : string) :
  no_char CR a = true →
  find_sub (String CR p) (a +:+ s) = (String.length a + find_sub (String CR p) s)%nat.
Proof.
  induction a as [|c a IH]; intros H; [reflexivity |].
  apply no_char_cons in H as [Hc H].
  rewrite append_cons, find_sub_unfold, (prefix_other _ _ _ Hc).
  rewrite IH by exact H. reflexivity.
Qed.

Lemma find_sub_here (pat s : string) : find_sub pat (pat +:+ s) = O.
Proof. rewrite find_sub_unfold. now rewrite prefix_complete. Qed.

Lemma find_sub_clean (p a : string) :
  no_char CR a = true → find_sub (String CR p) a = String.length a.
Proof.
  intros H. rewrite <- (append_nil_r a) at 1. rewrite find_sub_skip by exact H.
  simpl. lia.
Qed.

Lemma find_char_stop (c : ascii) (a s : string) :
  no_char c a = true → find_char c (a +:+ String c s) = String.length a.
Proof.
  induction a as [|d a IH]; intros H.
  - simpl. now rewrite Ascii.eqb_refl.
  - apply no_char_cons in H as [Hd H]. rewrite append_cons. simpl.
    rewrite (ascii_eqb_false _ _ Hd). now rewrite IH.
Qed.

Lemma name_value_clean (l : string * string) :
  name_value_ok l →
  no_char CR (name_value_text l) = true
  ∧ ∃ c rest, name_value_text l = String c rest ∧ c ≠ CR.
Proof.
  intros (Hc & Hn & Hv). unfold name_value_text. split.
  - rewrite no_char_app, Hn. unfold no_char in *. simpl. exact Hv.
  - destruct (fst l) as [|c name] eqn:E.
    + exists ":"%char, (String SP (snd l)). split; [reflexivity | discriminate].
    + exists c, (name +:+ String ":"%char (String SP (snd l))).
      apply no_char_cons in Hn as [Hc' _]. split; [reflexivity | exact Hc'].
Qed.

Lemma find_delimiter_skip (a s : string) :
  no_char CR a = true →
  find_sub delimiter (a +:+ s) = (String.length a + find_sub delimiter s)%nat.
Proof. apply (find_sub_skip (String LF newline)). Qed.

Lemma find_newline_skip (a s : string) :
  no_char CR a = true →
  find_sub newline (a +:+ s) = (String.length a + find_sub newline s)%nat.
Proof. apply (find_sub_skip (String LF "")). Qed.

Lemma find_delimiter_step (c : ascii) (s : string) :
  c ≠ CR → find_sub delimiter (String c s) = S (find_sub delimiter s).
Proof.
  intros H. rewrite find_sub_unfold.
  change delimiter with (String CR (String LF newline)) at 1.
  now rewrite (prefix_other _ _ _ H).
Qed.

(** Where the lines of a header block end is the first CRLF CRLF. *)
Lemma find_delimiter_lines (ls : list (string * string)) (body : string) :
  Forall name_value_ok ls →
  ∀ a : string,
    no_char CR a = true →
    find_sub delimiter (a +:+ (name_value_lines ls +:+ (delimiter +:+ body)))
    = (String.length a + String.length (name_value_lines ls))%nat.
Proof.
  induction ls as [|l ls IH]; intros Hok a Ha.
  - simpl name_value_lines. rewrite append_nil_l.
    rewrite find_delimiter_skip by exact Ha.
    rewrite find_sub_here. simpl. lia.
  - inversion Hok as [|? ? Hl Hls]; subst.
    destruct (name_value_clean l Hl) as [Hclean (c & rest & Htext & Hc)].
    rewrite find_delimiter_skip by exact Ha.
    simpl name_value_lines.
    rewrite !append_assoc.
    unfold newline at 1. rewrite !append_cons, append_nil_l.
    rewrite find_sub_unfold.
    assert (Hp : String.prefix delimiter
                   (String CR (String LF (name_value_text l
                      +:+ (name_value_lines ls +:+ (delimiter +:+ body))))) = false).
    { rewrite Htext, append_cons. unfold delimiter, newline.
      rewrite !append_cons, append_nil_l, !prefix_cons.
      destruct (ascii_dec CR CR); [| contradiction].
      destruct (ascii_dec LF LF); [| contradiction].
      destruct (ascii_dec CR c); [congruence | reflexivity]. }
    rewrite Hp. rewrite find_delimiter_step by discriminate.
    rewrite (IH Hls _ Hclean).
    rewrite !length_append. simpl. lia.
Qed.


Lemma find_newline_lines (ls : list (string * string)) (post : string) :
  find_sub newline (name_value_lines ls) = O.
Proof.
  destruct ls as [|l ls]; [reflexivity |].
  change (name_value_lines (l :: ls))
    with (newline +:+ (name_value_text l +:+ name_value_lines ls)).
  apply find_sub_here.
Qed.

Lemma name_value_length (l : string * string) :
  String.length (name_value_text l)
  = (String.length (fst l) + 2 + String.length (snd l))%nat.
Proof. unfold name_value_text. rewrite length_append. simpl. lia. Qed.

(** The header loop over well-formed lines stores every line, name and
    value as sent. *)
Lemma parse_headers_lines (ls : list (string * string)) :
  ∀ (fuel : nat) (pre post : string) (h : gmap string string) (raw : string)
    (headers_end header_begin : nat),
    raw = pre +:+ (name_value_lines ls +:+ post) →
    headers_end = (String.length pre + String.length (name_value_lines ls))%nat →
    header_begin = (String.length pre + 2)%nat →
    Forall name_value_ok ls → (length ls ≤ fuel)%nat →
    parse_headers fuel raw headers_end header_begin h = Some (Ok (store_pairs ls h)).
Proof.
  induction ls as [|[name value] ls IH];
    intros fuel pre post h raw he hb Hraw Hhe Hhb Hok Hfuel.
  - simpl in Hhe.
    assert (E : (he <=? hb)%nat = true) by (apply Nat.leb_le; lia).
    destruct fuel; simpl; now rewrite E.
  - inversion Hok as [|? ? Hl Hls]; subst he hb.
    destruct (name_value_clean _ Hl) as [Hclean _].
    destruct Hl as (Hcolon & Hn & Hv). simpl in Hcolon, Hn, Hv.
    destruct fuel as [|fuel]; [simpl in Hfuel; lia |].
    simpl in Hfuel.
    pose proof (name_value_length (name, value)) as Hlen. simpl fst in Hlen; simpl snd in Hlen.
    set (text := name_value_text (name, value)) in *.
    assert (Hlines : String.length (name_value_lines ((name, value) :: ls))
                     = (2 + String.length text + String.length (name_value_lines ls))%nat).
    { simpl name_value_lines. fold text. rewrite !length_append. reflexivity. }
    rewrite parse_headers_unfold.
    assert (E : (String.length pre + String.length (name_value_lines ((name, value) :: ls))
                 <=? String.length pre + 2)%nat = false)
      by (apply Nat.leb_gt; lia).
    rewrite E. cbv zeta.
    set (pre1 := pre +:+ newline).
    assert (Hpre1 : String.length pre1 = (String.length pre + 2)%nat)
      by (unfold pre1; rewrite length_append; reflexivity).
    assert (Hraw1 : raw = pre1 +:+ ((text +:+ name_value_lines ls) +:+ post)).
    { rewrite Hraw. simpl name_value_lines. fold text. unfold pre1.
      now rewrite !append_assoc. }
    assert (Hsearch : search raw (String.length pre + 2)
                        (String.length pre
                         + String.length (name_value_lines ((name, value) :: ls))) newline
                      = (String.length pre + 2 + String.length text)%nat).
    { unfold search. rewrite Hraw1, <- Hpre1.
      replace (String.length pre
               + String.length (name_value_lines ((name, value) :: ls)))%nat
        with (String.length pre1 + String.length (text +:+ name_value_lines ls))%nat
        by (rewrite length_append; lia).
      rewrite range_mid, find_newline_skip by exact Hclean.
      rewrite (find_newline_lines ls post). lia. }
    rewrite Hsearch.
    assert (Hraw2 : raw = pre1 +:+ (text +:+ (name_value_lines ls +:+ post))).
    { rewrite Hraw1. now rewrite !append_assoc. }
    assert (Hfind : find raw (String.length pre + 2)
                      (String.length pre + 2 + String.length text) ":"%char
                    = (String.length pre + 2 + String.length name)%nat).
    { unfold find. rewrite Hraw2, <- Hpre1. rewrite range_mid.
      unfold text, name_value_text. simpl fst; simpl snd.
      now rewrite find_char_stop. }
    rewrite Hfind.
    assert (E1 : (String.length pre + 2 + String.length name
                  =? String.length pre + 2 + String.length text)%nat = false)
      by (apply Nat.eqb_neq; lia).
    assert (E2 : (String.length pre + 2 + String.length text
                  <? String.length pre + 2 + String.length name + 2)%nat = false)
      by (apply Nat.ltb_ge; lia).
    rewrite E1, E2.
    assert (Hkey : range (String.length pre + 2)
                     (String.length pre + 2 + String.length name) raw = name).
    { rewrite Hraw2, <- Hpre1. unfold text, name_value_text. simpl fst; simpl snd.
      rewrite !append_assoc. apply range_mid. }
    assert (Hval : range (String.length pre + 2 + String.length name + 2)
                     (String.length pre + 2 + String.length text) raw = value).
    { rewrite Hraw2, Hlen. unfold text, name_value_text. simpl fst; simpl snd.
      replace (pre1 +:+ ((name +:+ String ":"%char (String SP value))
                           +:+ (name_value_lines ls +:+ post)))
        with ((pre1 +:+ (name +:+ String ":"%char (String SP EmptyString)))
                +:+ (value +:+ (name_value_lines ls +:+ post))).
      2:{ now rewrite !append_assoc. }
      replace (String.length pre + 2 + String.length name + 2)%nat
        with (String.length (pre1 +:+ (name +:+ String ":"%char (String SP EmptyString)))).
      2:{ rewrite !length_append. simpl. lia. }
      replace (String.length pre + 2 + (String.length name + 2 + String.length value))%nat
        with (String.length (pre1 +:+ (name +:+ String ":"%char (String SP EmptyString)))
              + String.length value)%nat.
      2:{ rewrite !length_append. simpl. lia. }
      apply range_mid. }
    rewrite Hkey, Hval.
    apply (IH fuel (pre1 +:+ text) post); try assumption.
    + rewrite Hraw2. now rewrite !append_assoc.
    + rewrite length_append. lia.
    + rewrite length_append. lia.
    + lia.
Qed.


Lemma drop_bytes_past (a s : string) (c : ascii) :
  drop_bytes (String.length a + 1) (a +:+ String c s) = s.
Proof.
  induction a as [|d a IH]; [reflexivity |]. rewrite append_cons. simpl. exact IH.
Qed.

Lemma no_char_cons_eq (c d : ascii) (s : string) :
  no_char c (String d s) = (negb (Ascii.eqb d c) && no_char c s)%bool.
Proof. reflexivity. Qed.

Lemma request_target_clean (p : string) (q : option string) :
  no_char SP p = true → no_char CR p = true →
  (∀ q', q = Some q' → no_char SP q' = true ∧ no_char CR q' = true) →
  no_char SP (request_target p q) = true ∧ no_char CR (request_target p q) = true.
Proof.
  intros Hs Hc Hq. destruct q as [q' |]; simpl; [| now split].
  destruct (Hq q' eq_refl) as [Hqs Hqc].
  rewrite !no_char_app, !no_char_cons_eq, Hs, Hc, Hqs, Hqc. now split.
Qed.

Lemma request_target_path (p : string) (q : option string) :
  no_char "?" p = true →
  range 0 (find (request_target p q) 0 (String.length (request_target p q)) "?"%char)
        (request_target p q) = p.
Proof.
  intros Hp. rewrite range_from_start, find_from. simpl drop_bytes. simpl Nat.add.
  destruct q as [q' |]; simpl request_target.
  - rewrite find_char_stop by exact Hp. apply bytes_upto_app.
  - rewrite find_char_none by exact Hp. apply bytes_upto_length.
Qed.

(** The offsets and the pieces [request::parse] finds in a clean request
    line. *)
Lemma request_line_bare_fields (m p : string) (q : option string) (proto ver : string) :
  request_line_clean m p q proto ver →
  let line := request_line_bare m p q proto ver in
  let target := request_target p q in
  let lm := String.length m in
  let lt := String.length target in
  let lp := String.length proto in
  String.length line = (lm + 1 + lt + 1 + lp + 1 + String.length ver)%nat
  ∧ no_char CR line = true
  ∧ find line 0 (String.length line) SP = lm
  ∧ range 0 lm line = m
  ∧ find line (lm + 1) (String.length line) SP = (lm + 1 + lt)%nat
  ∧ range (lm + 1) (lm + 1 + lt) line = target
  ∧ find line (lm + 1 + lt + 1) (String.length line) "/"%char = (lm + 1 + lt + 1 + lp)%nat
  ∧ range (lm + 1 + lt + 1) (lm + 1 + lt + 1 + lp) line = proto
  ∧ range (lm + 1 + lt + 1 + lp + 1) (String.length line) line = ver.
Proof.
  intros (Hms & Hmc & Hps & Hpq & Hpc & Hq & Hsl & Hprc & Hvc).
  destruct (request_target_clean p q Hps Hpc Hq) as [Hts Htc].
  intros line target lm lt lp.
  assert (Hline : line = m +:+ String SP (target +:+ String SP (proto +:+ String "/"%char ver)))
    by reflexivity.
  assert (Hlen : String.length line = (lm + 1 + lt + 1 + lp + 1 + String.length ver)%nat).
  { rewrite Hline, length_append. simpl. rewrite length_append. simpl.
    rewrite length_append. simpl. unfold lm, lt, lp. lia. }
  split; [exact Hlen |]. split.
  { rewrite Hline. unfold target.
    rewrite no_char_app, no_char_cons_eq, no_char_app, no_char_cons_eq, no_char_app,
      no_char_cons_eq.
    rewrite Hmc, Htc, Hprc, Hvc. reflexivity. }
  split.
  { rewrite find_from. simpl drop_bytes. simpl Nat.add. rewrite Hline.
    now apply find_char_stop. }
  split.
  { rewrite Hline. apply range_front. }
  assert (Hd1 : drop_bytes (lm + 1) line
                = target +:+ String SP (proto +:+ String "/"%char ver)).
  { rewrite Hline. apply drop_bytes_past. }
  split.
  { rewrite find_from, Hd1. now rewrite find_char_stop. }
  split.
  { rewrite range_take, Hd1. apply bytes_upto_app. }
  assert (Hd2 : drop_bytes (lm + 1 + lt + 1) line = proto +:+ String "/"%char ver).
  { replace (lm + 1 + lt + 1)%nat with ((lm + 1) + (lt + 1))%nat by lia.
    rewrite <- drop_drop, Hd1. apply drop_bytes_past. }
  split.
  { rewrite find_from, Hd2. now rewrite find_char_stop. }
  split.
  { rewrite range_take, Hd2. apply bytes_upto_app. }
  rewrite range_to_end.
  replace (lm + 1 + lt + 1 + lp + 1)%nat with ((lm + 1 + lt + 1) + (lp + 1))%nat by lia.
  rewrite <- drop_drop, Hd2. apply drop_bytes_past.
Qed.


Lemma name_value_lines_length (ls : list (string * string)) :
  (length ls ≤ String.length (name_value_lines ls))%nat.
Proof.
  induction ls as [|l ls IH]; [simpl; lia |].
  simpl name_value_lines. rewrite !length_append. simpl. lia.
Qed.

(** A whole well-formed request parsed by [request::parse]. *)
Lemma one_pass_parse_whole (m p : string) (q : option string) (proto ver : string)
    (ls : list (string * string)) (body : string) :
  request_line_clean m p q proto ver → Forall name_value_ok ls →
  parse (one_pass_request_text m p q proto ver ls body)
  = Some (Ok (mk_request
                (one_pass_request_text m p q proto ver ls body)
                (snd (umap_index "Host" (store_pairs ls ∅)))
                (transform_tolower m) (request_target p q) p (transform_tolower proto)
                (range 0 (find (fst (umap_index "Host" (store_pairs ls ∅))) 0
                            (String.length (fst (umap_index "Host" (store_pairs ls ∅))))
                            ":"%char)
                       (fst (umap_index "Host" (store_pairs ls ∅))))
                body ver)).
Proof.
  intros Hclean Hok.
  destruct (request_line_bare_fields m p q proto ver Hclean)
    as (Hlen & Hcr & F1 & R1 & F2 & R2 & F3 & R3 & R4).
  pose proof (request_target_path p q
                (proj1 (proj2 (proj2 (proj2 Hclean))))) as Hpath.
  set (line := request_line_bare m p q proto ver) in *.
  set (target := request_target p q) in *.
  remember (one_pass_request_text m p q proto ver ls body) as raw eqn:Hraw.
  unfold one_pass_request_text in Hraw. fold line in Hraw.
  assert (Hrawlen : String.length raw
                    = (String.length line + String.length (name_value_lines ls) + 4
                       + String.length body)%nat).
  { rewrite Hraw, !length_append. simpl. lia. }
  assert (Hne : String.eqb raw EmptyString = false).
  { apply String.eqb_neq. intros E. rewrite E in Hrawlen. simpl in Hrawlen. lia. }
  assert (Hhe : search raw 0 (String.length raw) delimiter
                = (String.length line + String.length (name_value_lines ls))%nat).
  { rewrite search_whole, Hraw. now apply find_delimiter_lines. }
  assert (Hhead : search raw 0 (String.length line + String.length (name_value_lines ls))
                    newline = String.length line).
  { unfold search. rewrite range_from_start.
    replace raw with ((line +:+ name_value_lines ls) +:+ (delimiter +:+ body))
      by (rewrite Hraw; now rewrite !append_assoc).
    rewrite <- length_append, bytes_upto_app.
    rewrite find_newline_skip by exact Hcr.
    rewrite (find_newline_lines ls body). lia. }
  assert (Hrl : range 0 (String.length line) raw = line).
  { rewrite Hraw. apply range_front. }
  assert (Hbody : range (String.length line + String.length (name_value_lines ls) + 4)
                    (String.length raw) raw = body).
  { rewrite range_to_end.
    replace raw with (((line +:+ name_value_lines ls) +:+ delimiter) +:+ body)
      by (rewrite Hraw; now rewrite !append_assoc).
    replace (String.length line + String.length (name_value_lines ls) + 4)%nat
      with (String.length ((line +:+ name_value_lines ls) +:+ delimiter))
      by (rewrite !length_append; simpl; lia).
    apply drop_bytes_app. }
  assert (Hloop : parse_headers (String.length raw) raw
                    (String.length line + String.length (name_value_lines ls))
                    (String.length line + 2) ∅
                  = Some (Ok (store_pairs ls ∅))).
  { apply (parse_headers_lines ls (String.length raw) line (delimiter +:+ body));
      try (reflexivity || assumption).
    pose proof (name_value_lines_length ls). lia. }
  unfold parse. rewrite Hne. cbv zeta.
  rewrite Hhe.
  assert (E0 : (String.length line + String.length (name_value_lines ls)
                =? String.length raw)%nat = false) by (apply Nat.eqb_neq; lia).
  rewrite E0, Hhead, Hrl, F1.
  assert (E1 : (String.length line <? String.length m + 1)%nat = false)
    by (apply Nat.ltb_ge; lia).
  rewrite E1, F2.
  assert (E2 : (String.length line <? String.length m + 1 + String.length target + 1)%nat
               = false) by (apply Nat.ltb_ge; lia).
  rewrite E2, F3.
  assert (E3 : (String.length line
                <? String.length m + 1 + String.length target + 1
                   + String.length proto + 1)%nat = false) by (apply Nat.ltb_ge; lia).
  rewrite E3, Hloop, R1, R2, R3, R4, Hbody.
  fold target. rewrite Hpath.
  destruct (umap_index "Host" (store_pairs ls ∅)) as [host headers'].
  reflexivity.
Qed.

End OnePassWhole.

(** ** The first line of a name wins, in whole requests *)

Section FirstLineWins.

Lemma store_pairs_app (a b : list (string * string)) (h : gmap string string) :
  store_pairs (a ++ b) h = store_pairs b (store_pairs a h).
Proof. unfold store_pairs. apply fold_left_app. Qed.

Lemma umap_insert_other (k v k0 : string) (m : gmap string string) :
  k ≠ k0 → umap_insert k v m !! k0 = m !! k0.
Proof.
  intros Hne. unfold umap_insert. destruct (m !! k); [reflexivity |].
  now apply lookup_insert_ne.
Qed.

Lemma store_pairs_keeps (ls : list (string * string)) :
  ∀ (h : gmap string string) (k v : string),
    h !! k = Some v → store_pairs ls h !! k = Some v.
Proof.
  induction ls as [|l ls IH]; intros h k v H; [exact H |].
  change (store_pairs (l :: ls) h) with (store_pairs ls (umap_insert (fst l) (snd l) h)).
  apply IH. now apply umap_insert_keeps.
Qed.

Lemma store_pairs_absent (ls : list (string * string)) :
  ∀ (h : gmap string string) (k : string),
    h !! k = None → Forall (λ l, fst l ≠ k) ls → store_pairs ls h !! k = None.
Proof.
  induction ls as [|l ls IH]; intros h k H Hls; [exact H |].
  inversion Hls as [|? ? Hl Hrest]; subst.
  change (store_pairs (l :: ls) h) with (store_pairs ls (umap_insert (fst l) (snd l) h)).
  apply IH; [| assumption]. now rewrite umap_insert_other.
Qed.

Lemma store_pairs_first (before after : list (string * string)) (name value : string)
    (h : gmap string string) :
  h !! name = None → Forall (λ l, fst l ≠ name) before →
  store_pairs (before ++ (name, value) :: after) h !! name = Some value.
Proof.
  intros H Hb. rewrite store_pairs_app.
  change (store_pairs ((name, value) :: after) (store_pairs before h))
    with (store_pairs after (umap_insert name value (store_pairs before h))).
  apply store_pairs_keeps, umap_insert_fresh. now apply store_pairs_absent.
Qed.

Lemma store_lines_pairs (ls : list header_line) :
  ∀ h : gmap string string,
    store_lines ls h = store_pairs (map (λ l, (stored_name l, hl_value l)) ls) h.
Proof.
  induction ls as [|l ls IH]; intros h; [reflexivity |].
  change (store_lines (l :: ls) h)
    with (store_lines ls (umap_insert (stored_name l) (hl_value l) h)).
  rewrite IH. reflexivity.
Qed.

Lemma store_lines_first (before after : list header_line) (l : header_line)
    (h : gmap string string) :
  h !! stored_name l = None →
  Forall (λ l', stored_name l' ≠ stored_name l) before →
  store_lines (before ++ l :: after) h !! stored_name l = Some (hl_value l).
Proof.
  intros H Hb. rewrite store_lines_pairs, map_app.
  change (map (λ l0, (stored_name l0, hl_value l0)) (l :: after))
    with ((stored_name l, hl_value l) :: map (λ l0, (stored_name l0, hl_value l0)) after).
  apply store_pairs_first; [exact H |].
  induction Hb as [|l' before' Hl' _ IH]; constructor; assumption.
Qed.

Lemma umap_index_keeps (k k0 v : string) (m : gmap string string) :
  m !! k0 = Some v → snd (umap_index k m) !! k0 = Some v.
Proof.
  intros H. unfold umap_index. destruct (m !! k) eqn:E; [exact H |].
  simpl. rewrite lookup_insert_ne; [exact H |]. intros ->. congruence.
Qed.

(** C3: the case of a stored header name. The incremental parser stores a
    header line read inside one call, starting where the previous line
    ended, under its lower-cased name whatever the case of the input, with
    the spaces in front of the value dropped; nothing is stored before the
    CR that ends the value, and that CR inserts the pair (the insertion keeps
    an entry already stored under the name); of a whole request read from a
    fresh request in one call it holds the values under the lower-cased
    names, inserted in order without overwriting. The one-pass parser does not
    lower-case: of a whole request whose header lines read [Name: value] it
    holds the map of the names and values as they were sent, inserted in
    order without overwriting, with an empty [Host] entry added when no line
    is named [Host]; the first line of a name is found under the name as
    sent. *)
Theorem header_line_stored_lowercase :
  (∀ (r : Incremental.request) (c0 : ascii) (name : string) (n : nat) (value : string),
      Incremental.state_ r = parse_state.crlf → c0 ≠ CR → no_char ":" name = true →
      starts_with SP value = false → no_char CR value = true →
      Incremental.headers_
        (Incremental.feed r (String c0 name +:+ ":" +:+ spaces n +:+ value))
      = Incremental.headers_ r
      ∧ Incremental.headers_
          (Incremental.feed r
             ((String c0 name +:+ ":" +:+ spaces n +:+ value) +:+ String CR ""))
        = umap_insert (transform_tolower (String c0 name)) value (Incremental.headers_ r)
      ∧ (Incremental.headers_ r !! transform_tolower (String c0 name) = None →
         Incremental.headers_
           (Incremental.feed r
              ((String c0 name +:+ ":" +:+ spaces n +:+ value) +:+ String CR ""))
           !! transform_tolower (String c0 name) = Some value)
      ∧ all_chars (λ c, negb (is_upper c)) (transform_tolower (String c0 name)) = true)
  ∧ (∀ (m p : string) (q : option string) (proto ver : string) (ls : list header_line),
      no_char SP m = true → no_char SP p = true → no_char "?" p = true →
      (∀ q', q = Some q' → no_char SP q' = true) →
      no_char "/" proto = true → no_char CR ver = true →
      Forall header_line_ok ls →
      Incremental.headers_
        (Incremental.feed Incremental.request_default
           (request_line_text m p q proto ver +:+ header_block ls))
      = store_lines ls ∅
      ∧ (∀ (before after : list header_line) (l : header_line),
           ls = before ++ l :: after →
           Forall (λ l', stored_name l' ≠ stored_name l) before →
           Incremental.headers_
             (Incremental.feed Incremental.request_default
                (request_line_text m p q proto ver +:+ header_block ls))
             !! stored_name l = Some (hl_value l)))
  ∧ (∀ (m p : string) (q : option string) (proto ver : string)
       (ls : list (string * string)) (body : string),
      request_line_clean m p q proto ver → Forall name_value_ok ls →
      ∃ req : OnePass.request,
        OnePass.parse (one_pass_request_text m p q proto ver ls body) = Some (Ok req)
        ∧ OnePass.headers_ req = snd (umap_index "Host" (store_pairs ls ∅))
        ∧ (∀ (before after : list (string * string)) (name value : string),
             ls = before ++ (name, value) :: after →
             Forall (λ l, fst l ≠ name) before →
             OnePass.headers_ req !! name = Some value)).
Proof.
  split; [| split].
  - intros r c0 name n value Hst Hc0 Hname Hsp Hcr.
    exact (header_line_stored r c0 name n value Hst Hc0 Hname Hsp Hcr).
  - intros m p q proto ver ls Hm Hp Hp' Hq Hproto Hver Hls.
    rewrite feed_consume, consume_app.
    rewrite consume_request_line by (assumption || reflexivity).
    rewrite consume_header_block by (assumption || reflexivity).
    split; [reflexivity |].
    intros before after l -> Hb. simpl.
    apply store_lines_first; [apply lookup_empty | exact Hb].
  - intros m p q proto ver ls body Hline Hls.
    eexists. split; [apply one_pass_parse_whole; assumption |].
    split; [reflexivity |].
    intros before after name value -> Hb. simpl.
    apply umap_index_keeps, store_pairs_first; [apply lookup_empty | exact Hb].
Qed.

Lemma header_line_stored_lowercase_witness :
  (Incremental.headers_
     (Incremental.feed (request_at parse_state.crlf)
        ((String "C"%char "ontent-Type" +:+ ":" +:+ spaces 2 +:+ "text/html")
           +:+ String CR ""))
     !! transform_tolower (String "C"%char "ontent-Type") = Some "text/html"
   ∧ transform_tolower (String "C"%char "ontent-Type") = "content-type")
  ∧ (Incremental.headers_
       (Incremental.feed Incremental.request_default
          (request_line_text "GET" "/" None "HTTP" "1.1"
             +:+ header_block [mk_header_line "C" "ontent-Type" 2 "text/html"]))
     = store_lines [mk_header_line "C" "ontent-Type" 2 "text/html"] ∅
     ∧ store_lines [mk_header_line "C" "ontent-Type" 2 "text/html"] ∅
       = {[ "content-type" := "text/html" ]})
  ∧ (∃ req : OnePass.request,
       OnePass.parse
         (one_pass_request_text "GET" "/" None "HTTP" "1.1"
            [("Content-Type", "text/html")] "")
       = Some (Ok req)
       ∧ OnePass.headers_ req !! "Content-Type" = Some "text/html"
       ∧ OnePass.headers_ req !! "content-type" = None).
Proof.
  split; [| split].
  - split; [| reflexivity].
    refine (proj1 (proj2 (proj2
      (proj1 header_line_stored_lowercase (request_at parse_state.crlf)
         "C"%char "ontent-Type" 2%nat "text/html" _ _ _ _ _))) _).
    + reflexivity.
    + discriminate.
    + reflexivity.
    + reflexivity.
    + reflexivity.
    + reflexivity.
  - split; [| vm_compute; reflexivity].
    apply (proj1 (proj2 header_line_stored_lowercase) "GET" "/" None "HTTP" "1.1"
             [mk_header_line "C" "ontent-Type" 2 "text/html"]);
      try reflexivity.
    + intros q' H. discriminate H.
    + repeat constructor; discriminate.
  - destruct (proj2 (proj2 header_line_stored_lowercase) "GET" "/" None "HTTP" "1.1"
                [("Content-Type", "text/html")] "")
      as (req & Hp & Hh & Hfirst).
    + repeat split; (reflexivity || discriminate).
    + repeat constructor.
    + exists req. split; [exact Hp |]. split.
      * apply (Hfirst [] []); [reflexivity | constructor].
      * rewrite Hh. vm_compute. reflexivity.
Defined.

(** C10: of two header lines with the same stored name the first wins, in
    both parsers, which insert without overwriting. Incremental parser: in a
    whole request read from a fresh request in one call, the first line of a
    name keeps its value whatever lines follow it in the request, a second
    line of the name included, and whatever bytes and calls come after; an
    entry once stored is never replaced; and a line that stores a fresh name
    from the state [crlf] keeps its value. One-pass parser: the request
    parsed from a whole request holds, under a name, the value of the first
    line of that name; and the first line the header loop reads from any
    position keeps its value to the end of the loop. *)
Theorem duplicate_header_keeps_first :
  (∀ (m p : string) (q : option string) (proto ver : string)
     (before after : list header_line) (l : header_line) (rest : string)
     (bufs : list (string * Z)),
      no_char SP m = true → no_char SP p = true → no_char "?" p = true →
      (∀ q', q = Some q' → no_char SP q' = true) →
      no_char "/" proto = true → no_char CR ver = true →
      Forall header_line_ok (before ++ l :: after) →
      Forall (λ l', stored_name l' ≠ stored_name l) before →
      Incremental.headers_
        (Incremental.calls
           (Incremental.feed Incremental.request_default
              (request_line_text m p q proto ver
                 +:+ (header_block (before ++ l :: after) +:+ rest)))
           bufs)
        !! stored_name l = Some (hl_value l))
  ∧ (∀ (r : Incremental.request) (chunk : string) (bufs : list (string * Z))
       (k v : string),
      Incremental.headers_ r !! k = Some v →
      Incremental.headers_ (Incremental.calls (Incremental.feed r chunk) bufs) !! k
      = Some v)
  ∧ (∀ (r : Incremental.request) (c0 : ascii) (name : string) (n : nat)
       (value rest : string) (bufs : list (string * Z)),
      Incremental.state_ r = parse_state.crlf → c0 ≠ CR → no_char ":" name = true →
      starts_with SP value = false → no_char CR value = true →
      Incremental.headers_ r !! transform_tolower (String c0 name) = None →
      Incremental.headers_
        (Incremental.calls
           (Incremental.feed r
              (((String c0 name +:+ ":" +:+ spaces n +:+ value) +:+ String CR "") +:+ rest))
           bufs)
        !! transform_tolower (String c0 name) = Some value)
  ∧ (∀ (m p : string) (q : option string) (proto ver : string)
       (before after : list (string * string)) (name value body : string),
      request_line_clean m p q proto ver →
      Forall name_value_ok (before ++ (name, value) :: after) →
      Forall (λ l', fst l' ≠ name) before →
      ∃ req : OnePass.request,
        OnePass.parse
          (one_pass_request_text m p q proto ver (before ++ (name, value) :: after) body)
        = Some (Ok req)
        ∧ OnePass.headers_ req !! name = Some value)
  ∧ (∀ (fuel : nat) (raw : string) (headers_end header_begin : nat)
       (h h' : gmap string string),
      (header_begin < headers_end)%nat →
      OnePass.parse_headers fuel raw headers_end header_begin h = Some (Ok h') →
      h !! OnePass.range header_begin
             (OnePass.find raw header_begin
                (OnePass.search raw header_begin headers_end newline) ":"%char) raw
        = None →
      h' !! OnePass.range header_begin
              (OnePass.find raw header_begin
                 (OnePass.search raw header_begin headers_end newline) ":"%char) raw
      = Some (OnePass.range
                (OnePass.find raw header_begin
                   (OnePass.search raw header_begin headers_end newline) ":"%char + 2)
                (OnePass.search raw header_begin headers_end newline) raw)).
Proof.
  split; [| split; [| split; [| split]]].
  - intros m p q proto ver before after l rest bufs Hm Hp Hp' Hq Hproto Hver Hls Hb.
    apply calls_keeps_header.
    rewrite feed_consume, consume_app.
    rewrite consume_request_line by (assumption || reflexivity).
    rewrite consume_app, consume_header_block by (assumption || reflexivity).
    apply consume_keeps_header. simpl.
    apply store_lines_first; [apply lookup_empty | exact Hb].
  - intros r chunk bufs k v H.
    apply calls_keeps_header. rewrite feed_consume. now apply consume_keeps_header.
  - intros r c0 name n value rest bufs Hst Hc0 Hname Hsp Hcr Hfresh.
    apply calls_keeps_header.
    rewrite feed_consume, consume_app, consume_header_line by assumption.
    apply consume_keeps_header. simpl. now apply umap_insert_fresh.
  - intros m p q proto ver before after name value body Hline Hls Hb.
    eexists. split; [apply one_pass_parse_whole; assumption |].
    simpl. apply umap_index_keeps, store_pairs_first; [apply lookup_empty | exact Hb].
  - intros fuel raw he hb h h' Hlt Hp Hfresh.
    exact (parse_headers_first fuel raw he hb h h' Hlt Hp Hfresh).
Qed.

Lemma duplicate_header_keeps_first_witness :
  (Incremental.headers_
     (Incremental.calls
        (Incremental.feed Incremental.request_default
           (request_line_text "GET" "/" None "HTTP" "1.1"
              +:+ (header_block
                     ([mk_header_line "A" "ccept" 1 "x"]
                        ++ mk_header_line "H" "ost" 1 "a" :: [mk_header_line "h" "OST" 0 "b"])
                     +:+ "body")))
        [("ignored", 7)])
     !! stored_name (mk_header_line "H" "ost" 1 "a")
   = Some (hl_value (mk_header_line "H" "ost" 1 "a"))
   ∧ stored_name (mk_header_line "H" "ost" 1 "a") = "host"
   ∧ stored_name (mk_header_line "h" "OST" 0 "b") = "host")
  ∧ Incremental.headers_
      (Incremental.calls
         (Incremental.feed
            (Incremental.mk_request {[ "host" := "a" ]} "GET" "/" "/" "HTTP" "" "" "1.1"
               parse_state.crlf)
            ("Host: b" +:+ delimiter))
         [("ignored", 7)])
      !! "host" = Some "a"
  ∧ Incremental.headers_
      (Incremental.calls
         (Incremental.feed (request_at parse_state.crlf)
            (((String "H"%char "ost" +:+ ":" +:+ spaces 1 +:+ "a") +:+ String CR "")
               +:+ (String LF "Host: b" +:+ delimiter)))
         [("ignored", 7)])
      !! transform_tolower (String "H"%char "ost") = Some "a"
  ∧ (∃ req : OnePass.request,
       OnePass.parse
         (one_pass_request_text "GET" "/" None "HTTP" "1.1"
            ([("Accept", "x")] ++ ("Host", "a") :: [("Host", "b")]) "body")
       = Some (Ok req)
       ∧ OnePass.headers_ req !! "Host" = Some "a")
  ∧ (∃ h' : gmap string string,
       OnePass.parse_headers 36 duplicate_host_request 32 16 ∅ = Some (Ok h')
       ∧ h' !! "Host" = Some "a").
Proof.
  split; [| split; [| split; [| split]]].
  - split; [| split; reflexivity].
    apply (proj1 duplicate_header_keeps_first "GET" "/" None "HTTP" "1.1"
             [mk_header_line "A" "ccept" 1 "x"] [mk_header_line "h" "OST" 0 "b"]
             (mk_header_line "H" "ost" 1 "a") "body" [("ignored", 7)]);
      try reflexivity.
    + intros q' H. discriminate H.
    + repeat constructor; discriminate.
    + repeat constructor. discriminate.
  - apply (proj1 (proj2 duplicate_header_keeps_first)). reflexivity.
  - apply (proj1 (proj2 (proj2 duplicate_header_keeps_first)) (request_at parse_state.crlf)
             "H"%char "ost" 1%nat "a");
      (reflexivity || discriminate).
  - apply (proj1 (proj2 (proj2 (proj2 duplicate_header_keeps_first))) "GET" "/" None "HTTP" "1.1"
             [("Accept", "x")] [("Host", "b")] "Host" "a" "body").
    + repeat split; (reflexivity || discriminate).
    + repeat constructor.
    + repeat constructor. discriminate.
  - eexists. split; [vm_compute; reflexivity |].
    refine (proj2 (proj2 (proj2 (proj2 duplicate_header_keeps_first))) 36%nat duplicate_host_request
              32%nat 16%nat ∅ _ _ _ _).
    + vm_compute. lia.
    + vm_compute. reflexivity.
    + vm_compute. reflexivity.
Defined.

End FirstLineWins.
